(** * The anchored popover component (assets/anchored-popover.js)

    A shallow embedding of the custom element [AnchoredPopoverComponent]:
    the document is a store of elements, the component's methods are
    computations in a small state-and-exception monad over that store, and
    the host platform (event dispatch, the popover show and hide algorithms,
    timers, idle callbacks) is modelled only as far as the component calls
    into it. *)

From stdpp Require Import base option list strings gmap pretty.
From Stdlib Require Import ZArith Lia.

Open Scope string_scope.
Open Scope list_scope.
Open Scope nat_scope.

(** ** JavaScript numbers

    [getBoundingClientRect], [innerWidth] and [innerHeight] return JavaScript
    numbers; the component subtracts them with [-] and renders them with a
    template literal.  Both operations are taken as an interface. A template
    literal of a number is never the empty string. *)

Class JSNumber := {
  num : Type;
  num_inhabited : Inhabited num;
  minus : num → num → num;
  to_string : num → string;
  to_string_nonempty : ∀ n, to_string n ≠ "";
}.
#[export] Existing Instance num_inhabited.

(** ** The document *)

Record DOMRect `{JSNumber} := mkRect {
  rect_top : num;
  rect_right : num;
  rect_bottom : num;
  rect_left : num;
}.
Arguments mkRect {_} _ _ _ _.

(** An element, as far as the component looks at it: its inline style
    declarations, the rectangle [getBoundingClientRect] returns, its popover
    visibility ([:popover-open]) and the number of [beforetoggle] listeners
    the component has added to it (every [connectedCallback] adds a fresh
    closure, so they are counted, not deduplicated). *)
Record Element `{JSNumber} := mkElement {
  style : gmap string string;
  rect : DOMRect;
  popover_open : bool;
  beforetoggle_listeners : nat;
}.
Arguments mkElement {_} _ _ _ _.

#[export] Instance DOMRect_inhabited `{JSNumber} : Inhabited DOMRect :=
  populate (mkRect inhabitant inhabitant inhabitant inhabitant).
#[export] Instance Element_inhabited `{JSNumber} : Inhabited Element :=
  populate (mkElement ∅ inhabitant false 0).

(** Calls into the platform that are visible from outside the component. *)
Inductive Effect :=
  | SetProperty (el : nat) (name value : string)
  | AddEventListener (type : string)
  | RemoveEventListener (type : string)
  | HidePopover (el : nat).

(** The world: the document and window, the component instance's own fields
    ([refs], [dataset]), the timer of the debounced listener, the pending idle
    callbacks, a millisecond clock and the trace of effects so far. *)
Record World `{JSNumber} := mkWorld {
  elements : gmap nat Element;
  innerWidth : num;
  innerHeight : num;
  resize_registered : bool;
  refs : gmap string nat;
  dataset : gmap string string;
  timeout : option nat;
  idle_callbacks : nat;
  now : nat;
  trace : list Effect;
}.
Arguments mkWorld {_} _ _ _ _ _ _ _ _ _ _.

Section Model.
Context `{JSNumber}.

Definition with_elements (f : gmap nat Element → gmap nat Element) (w : World) : World :=
  match w with
  | mkWorld els iw ih reg rs ds tm idle clk tr =>
      mkWorld (f els) iw ih reg rs ds tm idle clk tr
  end.

Definition with_resize_registered (b : bool) (w : World) : World :=
  match w with
  | mkWorld els iw ih reg rs ds tm idle clk tr =>
      mkWorld els iw ih b rs ds tm idle clk tr
  end.

Definition with_timeout (t : option nat) (w : World) : World :=
  match w with
  | mkWorld els iw ih reg rs ds tm idle clk tr =>
      mkWorld els iw ih reg rs ds t idle clk tr
  end.

Definition with_idle_callbacks (n : nat) (w : World) : World :=
  match w with
  | mkWorld els iw ih reg rs ds tm idle clk tr =>
      mkWorld els iw ih reg rs ds tm n clk tr
  end.

Definition with_now (t : nat) (w : World) : World :=
  match w with
  | mkWorld els iw ih reg rs ds tm idle clk tr =>
      mkWorld els iw ih reg rs ds tm idle t tr
  end.

Definition with_dataset (d : gmap string string) (w : World) : World :=
  match w with
  | mkWorld els iw ih reg rs ds tm idle clk tr =>
      mkWorld els iw ih reg rs d tm idle clk tr
  end.

Definition with_viewport (W Ht : num) (w : World) : World :=
  match w with
  | mkWorld els iw ih reg rs ds tm idle clk tr =>
      mkWorld els W Ht reg rs ds tm idle clk tr
  end.

Definition log (e : Effect) (w : World) : World :=
  match w with
  | mkWorld els iw ih reg rs ds tm idle clk tr =>
      mkWorld els iw ih reg rs ds tm idle clk (tr ++ [e])
  end.

(** The element with identity [el]. *)
Definition element (w : World) (el : nat) : Element := elements w !!! el.

Definition with_style (s' : gmap string string) (e : Element) : Element :=
  match e with
  | mkElement s r o n => mkElement s' r o n
  end.

Definition with_rect (r' : DOMRect) (e : Element) : Element :=
  match e with
  | mkElement s r o n => mkElement s r' o n
  end.

Definition with_popover_open (b : bool) (e : Element) : Element :=
  match e with
  | mkElement s r o n => mkElement s r b n
  end.

Definition with_beforetoggle_listeners (k : nat) (e : Element) : Element :=
  match e with
  | mkElement s r o n => mkElement s r o k
  end.

Definition update_element (el : nat) (f : Element → Element) (w : World) : World :=
  with_elements (λ m, <[el := f (m !!! el)]> m) w.

(** ** Computations

    A method either returns a value in a new world or throws; what it did
    before throwing stays done. *)

Inductive Exn := TypeError.

Inductive Result (A : Type) :=
  | Ok (a : A) (w : World)
  | Throw (e : Exn) (w : World).
Arguments Ok {A} a w.
Arguments Throw {A} e w.

Definition M (A : Type) : Type := World → Result A.

Definition ret {A} (a : A) : M A := λ w, Ok a w.

Definition bind {A B} (m : M A) (k : A → M B) : M B :=
  λ w, match m w with
       | Ok a w' => k a w'
       | Throw e w' => Throw e w'
       end.

Definition throw {A} (e : Exn) : M A := λ w, Throw e w.
Definition gets {A} (f : World → A) : M A := λ w, Ok (f w) w.
Definition modify (f : World → World) : M unit := λ w, Ok tt (f w).

End Model.

Arguments Ok {_ _} a w.
Arguments Throw {_ _} e w.

Declare Scope js_scope.
Delimit Scope js_scope with js.
Notation "x <- m ;; k" := (bind m (λ x, k))
  (at level 100, m at next level, k at level 200, right associativity) : js_scope.
Notation "m ;; k" := (bind m (λ _, k))
  (at level 100, k at level 200, right associativity) : js_scope.
Open Scope js_scope.

Section Component.
Context `{JSNumber}.

(** ** The platform, as the component calls it *)

(** A JavaScript value that is an element or [undefined] is an
    [option nat]; [undefined] is falsy, an element is truthy, and calling a
    method on [undefined] throws a [TypeError]. *)
Definition truthy (o : option nat) : bool := bool_decide (is_Some o).

(** A string is truthy when it is not empty; [undefined] is falsy. *)
Definition truthy_string (o : option string) : bool :=
  match o with
  | Some s => negb (bool_decide (s = ""))
  | None => false
  end.

Definition method {A} (o : option nat) (f : nat → M A) : M A :=
  match o with
  | Some el => f el
  | None => throw TypeError
  end.

(** [el.getBoundingClientRect()] *)
Definition getBoundingClientRect (o : option nat) : M DOMRect :=
  method o (λ el, gets (λ w, rect (element w el))).

(** [el.style.setProperty(name, value)]: an empty value removes the
    declaration, any other value of a custom property is stored as it is. *)
Definition set_property (el : nat) (name value : string) (w : World) : World :=
  log (SetProperty el name value)
    (update_element el
       (λ e, with_style (if decide (value = "") then delete name (style e)
                         else <[name := value]> (style e)) e) w).

Definition setProperty (o : option nat) (name value : string) : M unit :=
  method o (λ el, modify (set_property el name value)).

(** [el.matches(':popover-open')] *)
Definition matches_popover_open (o : option nat) : M bool :=
  method o (λ el, gets (λ w, popover_open (element w el))).

(** [window.addEventListener('resize', this.#resizeListener)]: a listener
    that is already registered is not registered twice. *)
Definition window_addEventListener : M unit :=
  modify (λ w, log (AddEventListener "resize") (with_resize_registered true w)).

(** [window.removeEventListener('resize', this.#resizeListener)] *)
Definition window_removeEventListener : M unit :=
  modify (λ w, log (RemoveEventListener "resize") (with_resize_registered false w)).

(** Calling an [async] arrow function that has no [await]: the body runs to
    its end before the call returns, and an exception of the body rejects
    the returned promise instead of reaching the caller. *)
Definition async (body : M unit) : M unit :=
  λ w, match body w with
       | Ok _ w' => Ok tt w'
       | Throw _ w' => Ok tt w'
       end.

(** Run [m] once for each of [n] listeners. *)
Fixpoint each_listener (n : nat) (m : M unit) : M unit :=
  match n with
  | 0 => ret tt
  | S n' => m;; each_listener n' m
  end.

(** ** The component *)

(** [this.refs.popover], [this.refs.trigger] *)
Definition refs_popover : M (option nat) := gets (λ w, refs w !! "popover").
Definition refs_trigger : M (option nat) := gets (λ w, refs w !! "trigger").

(** [#updatePosition], the body of the arrow function. *)
Definition updatePosition : M unit :=
  popover <- refs_popover;;
  trigger <- refs_trigger;;
  if negb (truthy popover) || negb (truthy trigger) then ret tt else
  positions <- getBoundingClientRect trigger;;
  setProperty popover "--anchor-top" (to_string (rect_top positions));;
  W <- gets innerWidth;;
  setProperty popover "--anchor-right" (to_string (minus W (rect_right positions)));;
  Ht <- gets innerHeight;;
  setProperty popover "--anchor-bottom" (to_string (minus Ht (rect_bottom positions)));;
  setProperty popover "--anchor-left" (to_string (rect_left positions)).

(** The listener that [connectedCallback] adds to the popover for
    [beforetoggle]; [newState] is [evt.newState]. *)
Definition beforetoggle_listener (newState : string) : M unit :=
  async updatePosition;;
  if decide (newState = "open") then window_addEventListener
  else window_removeEventListener.

(** Dispatching [beforetoggle] on an element runs the listeners added to it. *)
Definition dispatch_beforetoggle (el : nat) (newState : string) : M unit :=
  n <- gets (λ w, beforetoggle_listeners (element w el));;
  each_listener n (beforetoggle_listener newState).

(** The platform's show and hide algorithms for a popover, without
    cancellation.  Both return at once when the popover is already in the
    requested state; otherwise [beforetoggle] is fired first and the
    visibility changes after it. *)
Definition show_popover (el : nat) : M unit :=
  is_open <- gets (λ w, popover_open (element w el));;
  if is_open then ret tt else
  dispatch_beforetoggle el "open";;
  modify (update_element el (with_popover_open true)).

Definition hide_popover (el : nat) : M unit :=
  is_open <- gets (λ w, popover_open (element w el));;
  if is_open then
    dispatch_beforetoggle el "closed";;
    modify (update_element el (with_popover_open false))
  else ret tt.

(** An opening that a listener of the page cancels: the show algorithm
    fires [beforetoggle] and stops there, the popover stays closed. *)
Definition show_popover_cancelled (el : nat) : M unit :=
  is_open <- gets (λ w, popover_open (element w el));;
  if is_open then ret tt else dispatch_beforetoggle el "open".

(** A closing that the platform does not announce: a popover that is
    removed from the document, or loses its [popover] attribute, is hidden
    without [beforetoggle]. *)
Definition hide_popover_silently (el : nat) : M unit :=
  modify (update_element el (with_popover_open false)).

(** [el.hidePopover()], as the component calls it. *)
Definition hidePopover (o : option nat) : M unit :=
  method o (λ el, modify (log (HidePopover el));; hide_popover el).

(** [this.dataset.closeOnResize]: the value of the [data-close-on-resize]
    attribute, [undefined] when the attribute is absent. *)
Definition dataset_closeOnResize : M (option string) :=
  gets (λ w, dataset w !! "closeOnResize").

(** The arrow function handed to [debounce] in [#resizeListener]. *)
Definition resize_callback : M unit :=
  flag <- dataset_closeOnResize;;
  if truthy_string flag then
    popover <- refs_popover;;
    if truthy popover then
      is_open <- matches_popover_open popover;;
      if is_open then hidePopover popover else ret tt
    else ret tt
  else ret tt.

(** Modelled from the spec: the [debounce] utility of [@theme/utilities],
    which is not part of this file.  A call of the debounced function
    suppresses the call pending from an earlier invocation and schedules the
    wrapped function [wait] milliseconds later, so that only the last
    invocation of a burst executes.  The world holds the one timer of the one
    debounced function the component creates; [run_timeout] is the timer
    firing. *)
Definition debounce (wait : nat) : M unit :=
  modify (λ w, with_timeout (Some (now w + wait)) w).

Definition run_timeout (fn : M unit) : M unit :=
  modify (with_timeout None);; fn.

(** [#resizeListener] *)
Definition resizeListener : M unit := debounce 100.

(** Modelled from the spec: [requestIdleCallback] of [@theme/utilities]
    queues the callback to run when the host is idle.  The only callback
    the component queues runs [#updatePosition]. *)
Definition requestIdleCallback : M unit :=
  modify (λ w, with_idle_callbacks (S (idle_callbacks w)) w).

(** Modelled from the spec: [super.connectedCallback()] and
    [super.disconnectedCallback()] of the [Component] base class, which
    resolves the references before the component's own logic runs; the
    resolved references are the world's [refs]. *)
Definition super_connectedCallback : M unit := ret tt.
Definition super_disconnectedCallback : M unit := ret tt.

(** [popover?.addEventListener('beforetoggle', ...)] *)
Definition add_beforetoggle_listener (o : option nat) : M unit :=
  match o with
  | Some el =>
      modify (update_element el
        (λ e, with_beforetoggle_listeners (S (beforetoggle_listeners e)) e))
  | None => ret tt
  end.

Definition connectedCallback : M unit :=
  super_connectedCallback;;
  popover <- refs_popover;;
  add_beforetoggle_listener popover;;
  requestIdleCallback.

Definition disconnectedCallback : M unit :=
  super_disconnectedCallback;;
  window_removeEventListener.

(** ** The host's event loop *)

(** A [resize] event on the window calls the listener when it is registered. *)
Definition dispatch_resize : M unit :=
  registered <- gets resize_registered;;
  if registered then resizeListener else ret tt.

(** [d] milliseconds pass; a timer that comes due fires at its deadline. *)
Definition elapse (d : nat) : M unit :=
  t0 <- gets now;;
  pending <- gets timeout;;
  match pending with
  | Some t =>
      if decide (t ≤ t0 + d) then
        modify (with_now (t `max` t0));;
        run_timeout resize_callback;;
        modify (with_now (t0 + d))
      else modify (with_now (t0 + d))
  | None => modify (with_now (t0 + d))
  end.

(** The host is idle: one queued callback runs. *)
Definition run_idle : M unit :=
  n <- gets idle_callbacks;;
  match n with
  | S n' => modify (with_idle_callbacks n');; async updatePosition
  | 0 => ret tt
  end.

(** What the host and the page can do to the component and its document.
    [SetData] and [RemoveData] set and remove a [data-*] attribute of the
    component, named as [dataset] names it; [Layout] and [Viewport] change
    an element's rectangle and the window's size.  [Connect] and
    [Disconnect] are the two lifecycle callbacks alone: removing the
    component from the document is [HideSilently] of the popovers inside it
    (and a [Layout] of what it contains) followed by [Disconnect]. *)
Inductive Event :=
  | Connect
  | Disconnect
  | Show (el : nat)
  | Hide (el : nat)
  | Resize
  | Elapse (d : nat)
  | Idle
  | SetData (name value : string)
  | RemoveData (name : string)
  | Layout (el : nat) (r : DOMRect)
  | Viewport (W Ht : num)
  | ShowCancelled (el : nat)
  | HideSilently (el : nat).

Definition handle (ev : Event) : M unit :=
  match ev with
  | Connect => connectedCallback
  | Disconnect => disconnectedCallback
  | Show el => show_popover el
  | Hide el => hide_popover el
  | Resize => dispatch_resize
  | Elapse d => elapse d
  | Idle => run_idle
  | SetData name value => modify (λ w, with_dataset (<[name := value]> (dataset w)) w)
  | RemoveData name => modify (λ w, with_dataset (delete name (dataset w)) w)
  | Layout el r => modify (update_element el (with_rect r))
  | Viewport W Ht => modify (with_viewport W Ht)
  | ShowCancelled el => show_popover_cancelled el
  | HideSilently el => hide_popover_silently el
  end.

Fixpoint run (evs : list Event) : M unit :=
  match evs with
  | [] => ret tt
  | ev :: evs' => handle ev;; run evs'
  end.

(** Resize events at any spacing: each one is followed by a wait of the
    given length. *)
Fixpoint resizes (gaps : list nat) : M unit :=
  match gaps with
  | [] => ret tt
  | d :: gaps' => dispatch_resize;; elapse d;; resizes gaps'
  end.

(** A burst of [S (length gaps)] resize events, [gaps] apart. *)
Definition burst (gaps : list nat) : M unit :=
  resizes gaps;; dispatch_resize.

(** ** Vocabulary of the properties *)

(** The close actions in a trace. *)
Fixpoint count_closes (tr : list Effect) : nat :=
  match tr with
  | [] => 0
  | HidePopover _ :: tr' => S (count_closes tr')
  | _ :: tr' => count_closes tr'
  end.

(** A component instance that has not been attached yet: its resize
    listener is not registered and it has added no [beforetoggle] listener. *)
Definition fresh_instance (w : World) : Prop :=
  resize_registered w = false ∧
  map_Forall (λ _ e, beforetoggle_listeners e = 0) (elements w).

(** The events in which every closing is announced by [beforetoggle] and
    every announced opening is carried out. *)
Definition announced (ev : Event) : bool :=
  match ev with
  | ShowCancelled _ | HideSilently _ => false
  | _ => true
  end.

Definition is_toggle (ev : Event) : bool :=
  match ev with
  | Show _ | Hide _ => true
  | _ => false
  end.

(** ** Vocabulary of the proofs *)

(** The world after the four writes of [#updatePosition]. *)
Definition anchored (p : nat) (R : DOMRect) (W Ht : num) (w : World) : World :=
  set_property p "--anchor-left" (to_string (rect_left R))
    (set_property p "--anchor-bottom" (to_string (minus Ht (rect_bottom R)))
      (set_property p "--anchor-right" (to_string (minus W (rect_right R)))
        (set_property p "--anchor-top" (to_string (rect_top R)) w))).

(** The four declarations, written over the style [s]. *)
Definition anchor_style (a b c d : string) (s : gmap string string) :
    gmap string string :=
  <["--anchor-left" := d]> (<["--anchor-bottom" := c]>
    (<["--anchor-right" := b]> (<["--anchor-top" := a]> s))).

(** [w'] differs from [w] at most in style declarations, in the window
    registration and in effects other than close actions. *)
Definition restyled (w w' : World) : Prop :=
  innerWidth w' = innerWidth w ∧ innerHeight w' = innerHeight w ∧
  refs w' = refs w ∧ dataset w' = dataset w ∧ timeout w' = timeout w ∧
  idle_callbacks w' = idle_callbacks w ∧ now w' = now w ∧
  count_closes (trace w') = count_closes (trace w) ∧
  ∀ el, rect (element w' el) = rect (element w el) ∧
        popover_open (element w' el) = popover_open (element w el) ∧
        beforetoggle_listeners (element w' el)
        = beforetoggle_listeners (element w el).

(** [w'] is [w] after the popover [el] got the visibility [b]: as
    [restyled], but for that visibility. *)
Definition toggled (el : nat) (b : bool) (w w' : World) : Prop :=
  innerWidth w' = innerWidth w ∧ innerHeight w' = innerHeight w ∧
  refs w' = refs w ∧ dataset w' = dataset w ∧ timeout w' = timeout w ∧
  idle_callbacks w' = idle_callbacks w ∧ now w' = now w ∧
  count_closes (trace w') = count_closes (trace w) ∧
  ∀ el', rect (element w' el') = rect (element w el') ∧
         popover_open (element w' el')
         = (if decide (el' = el) then b else popover_open (element w el')) ∧
         beforetoggle_listeners (element w' el')
         = beforetoggle_listeners (element w el').

(** The registration after [n] listeners ran for a transition to the
    visibility [b]. *)
Definition registered_after (n : nat) (b : bool) (before : bool) : bool :=
  if n is 0 then before else b.

(** Only the timer and the clock differ between [w] and [w']. *)
Definition time_passed (w w' : World) : Prop :=
  elements w' = elements w ∧ trace w' = trace w ∧
  resize_registered w' = resize_registered w ∧ refs w' = refs w ∧
  dataset w' = dataset w ∧ idle_callbacks w' = idle_callbacks w ∧
  innerWidth w' = innerWidth w ∧ innerHeight w' = innerHeight w.

(** The world in which a timer that came due runs its callback. *)
Definition at_deadline (t : nat) (w : World) : World :=
  with_timeout None (with_now (t `max` now w) w).

(** The world a resize event at time [T] leaves: the timer is set to
    [T + 100]. *)
Definition armed (T : nat) (w : World) : World :=
  with_now T (with_timeout (Some (T + 100)) w).

(** [w'] is [w] up to the visibility of popovers. *)
Definition unobserved (w w' : World) : Prop :=
  trace w' = trace w ∧ resize_registered w' = resize_registered w ∧
  refs w' = refs w ∧ timeout w' = timeout w ∧
  idle_callbacks w' = idle_callbacks w ∧
  ∀ el, style (element w' el) = style (element w el) ∧
        beforetoggle_listeners (element w' el)
        = beforetoggle_listeners (element w el).


(** [w'] has the registration, the references, the visibilities and the
    listeners of [w]. *)
Definition same_shape (w w' : World) : Prop :=
  refs w' = refs w ∧ resize_registered w' = resize_registered w ∧
  ∀ el, popover_open (element w' el) = popover_open (element w el) ∧
        beforetoggle_listeners (element w' el)
        = beforetoggle_listeners (element w el).

End Component.

(** ** Integer pixels

    On integers in the range where JavaScript arithmetic is exact and the
    rendering is plain decimal, [-] is integer subtraction and the template
    literal is the decimal numeral. *)

Lemma pretty_N_go_length (x : N) (s : string) :
  (String.length s ≤ String.length (pretty_N_go x s))%nat.
Proof.
  revert s. induction (N.lt_wf_0 x) as [x _ IH]. intros s.
  destruct (decide (x = 0)%N) as [->|Hx]; [by rewrite pretty_N_go_0|].
  rewrite pretty_N_go_step by lia.
  etrans; [|apply IH, N.div_lt; lia]. simpl. lia.
Qed.

Lemma pretty_N_nonempty (x : N) : pretty x ≠ "".
Proof.
  unfold pretty, pretty_N. case_decide; [done|].
  rewrite pretty_N_go_step by lia. intros Heq.
  pose proof (pretty_N_go_length (x `div` 10)
                (String (pretty_N_char (x `mod` 10)) "")) as Hlen.
  rewrite Heq in Hlen. simpl in Hlen. lia.
Qed.

Lemma pretty_Z_nonempty (x : Z) : pretty x ≠ "".
Proof.
  destruct x as [|p|p]; [done| |done].
  apply (pretty_N_nonempty (Npos p)).
Qed.

#[export] Instance Z_JSNumber : JSNumber := {|
  num := Z;
  num_inhabited := populate 0%Z;
  minus := Z.sub;
  to_string := pretty;
  to_string_nonempty := pretty_Z_nonempty;
|}.

Module Example.

(** The document of the class comment: element 1 is the trigger button,
    element 2 the popover; the trigger rectangle and the viewport are those of
    the scenario top 50, left 20, right 120, bottom 80 in 1000 by 800. *)
Definition trigger : Element :=
  mkElement ∅ (mkRect 50 120 80 20)%Z false 0.

Definition popover : Element :=
  mkElement ∅ (mkRect 0 0 0 0)%Z false 0.

Definition document : gmap nat Element := <[1 := trigger]> (<[2 := popover]> ∅).

Definition both_refs : gmap string nat := <["trigger" := 1]> (<["popover" := 2]> ∅).

(** A freshly created component whose [data-close-on-resize] attribute has
    the value [attr] (absent when [None]). *)
Definition fresh (rs : gmap string nat) (attr : option string) : World :=
  mkWorld document 1000%Z 800%Z false rs
    (match attr with Some v => <["closeOnResize" := v]> ∅ | None => ∅ end)
    None 0 0 [].

(** A component that lacks the popover reference. *)
Definition trigger_only : gmap string nat := <["trigger" := 1]> ∅.

(** The world a computation ends in. *)
Definition after (m : M unit) (w : World) : World :=
  match m w with
  | Ok _ w' => w'
  | Throw _ w' => w'
  end.

(** The component attached and its popover opened. *)
Definition opened (attr : option string) : World :=
  after (run [Connect; Show 2]) (fresh both_refs attr).

End Example.

(** * Registration of the element (the end of the module)

    [customElements] is a map from tag names to constructors.  [define]
    throws a [NotSupportedError] when the name is taken or when the
    constructor is already registered, under whatever name; the tag name the
    module uses is a valid custom element name. *)

Inductive Constructor :=
  | AnchoredPopoverComponent
  | OtherElement (id : nat).

#[export] Instance Constructor_eq_dec : EqDecision Constructor.
Proof. solve_decision. Defined.

Inductive Registration :=
  | Registered (r : gmap string Constructor)
  | NotSupportedError (r : gmap string Constructor).

(** [customElements.get(name)] *)
Definition customElements_get (name : string) (r : gmap string Constructor) :
    option Constructor :=
  r !! name.

(** [customElements.define(name, constructor)] *)
Definition customElements_define (name : string) (c : Constructor)
    (r : gmap string Constructor) : Registration :=
  if decide (is_Some (r !! name)) then NotSupportedError r
  else if decide (map_Exists (λ _ c', c' = c) r) then NotSupportedError r
  else Registered (<[name := c]> r).

(** The last statement of the module. *)
Definition define_component (r : gmap string Constructor) : Registration :=
  if bool_decide (is_Some (customElements_get "anchored-popover-component" r))
  then Registered r
  else customElements_define "anchored-popover-component" AnchoredPopoverComponent r.

(** Evaluating a module again starts from the registry the first evaluation
    left. *)
Definition define_component_again (res : Registration) : Registration :=
  match res with
  | Registered r => define_component r
  | NotSupportedError r => NotSupportedError r
  end.

(** * Further vocabulary *)

Section FurtherVocabulary.
Context `{JSNumber}.

(** The writes of a recomputation and the elements it leaves, as functions
    of what it reads: the references, the viewport and the elements. *)
Definition anchor_writes (rs : gmap string nat) (W Ht : num)
    (els : gmap nat Element) : list Effect :=
  match rs !! "popover", rs !! "trigger" with
  | Some p, Some t =>
      let R := rect (els !!! t) in
      [SetProperty p "--anchor-top" (to_string (rect_top R));
       SetProperty p "--anchor-right" (to_string (minus W (rect_right R)));
       SetProperty p "--anchor-bottom" (to_string (minus Ht (rect_bottom R)));
       SetProperty p "--anchor-left" (to_string (rect_left R))]
  | _, _ => []
  end.

Definition anchor_elements (rs : gmap string nat) (W Ht : num)
    (els : gmap nat Element) : gmap nat Element :=
  match rs !! "popover", rs !! "trigger" with
  | Some p, Some t =>
      let R := rect (els !!! t) in
      <[p := with_style
               (anchor_style (to_string (rect_top R))
                  (to_string (minus W (rect_right R)))
                  (to_string (minus Ht (rect_bottom R)))
                  (to_string (rect_left R)) (style (els !!! p)))
               (els !!! p)]> els
  | _, _ => els
  end.

(** The effect the listener ends with, by the new state. *)
Definition listening_effect (newState : string) : Effect :=
  if decide (newState = "open") then AddEventListener "resize"
  else RemoveEventListener "resize".

(** [k] times attached and removed from the document again: a removal
    hides the popover [p] inside the component without [beforetoggle] and
    then runs [disconnectedCallback]. *)
Fixpoint reattached (p : nat) (k : nat) : list Event :=
  match k with
  | 0 => []
  | S k' => Connect :: HideSilently p :: Disconnect :: reattached p k'
  end.

(** The events other than detaching. *)
Definition stays_attached (ev : Event) : bool :=
  match ev with
  | Disconnect => false
  | _ => true
  end.

(** The component is attached to the popover [p] and follows it: [p] is the
    referenced popover, it carries the component's listeners and no other
    element does, and the resize listener is registered exactly when [p] is
    open. *)
Definition tracking (p : nat) (w : World) : Prop :=
  refs w !! "popover" = Some p ∧
  0 < beforetoggle_listeners (element w p) ∧
  (∀ el, 0 < beforetoggle_listeners (element w el) → el = p) ∧
  resize_registered w = popover_open (element w p).

End FurtherVocabulary.

(** * Properties *)

Section Properties.
Context `{JSNumber}.
Implicit Types (w : World) (el p t : nat) (e : Element).

(** ** The store *)

Lemma element_log w el (ef : Effect) : element (log ef w) el = element w el.
Proof. by destruct w. Qed.

Lemma fresh_instance_listeners w el :
  fresh_instance w → beforetoggle_listeners (element w el) = 0.
Proof.
  intros [_ Hall]. unfold element. rewrite lookup_total_alt.
  destruct (elements w !! el) as [e|] eqn:He; [|done].
  apply (Hall el e He).
Qed.

Lemma element_update_eq w el (f : Element → Element) :
  element (update_element el f w) el = f (element w el).
Proof. destruct w. apply lookup_total_insert_eq. Qed.

Lemma element_update_ne w el el' (f : Element → Element) :
  el ≠ el' → element (update_element el f w) el' = element w el'.
Proof. intros Hne. destruct w. by apply lookup_total_insert_ne. Qed.

Lemma with_style_with_style (s s' : gmap string string) e :
  with_style s' (with_style s e) = with_style s' e.
Proof. by destruct e. Qed.

Lemma style_with_style (s : gmap string string) e : style (with_style s e) = s.
Proof. by destruct e. Qed.

Lemma rect_with_style (s : gmap string string) e : rect (with_style s e) = rect e.
Proof. by destruct e. Qed.

Lemma element_set_property_eq w el name value :
  value ≠ "" →
  element (set_property el name value w) el
  = with_style (<[name := value]> (style (element w el))) (element w el).
Proof.
  intros Hv. unfold set_property.
  rewrite element_log, element_update_eq. by destruct (decide (value = "")).
Qed.

Lemma element_set_property_ne w el el' name value :
  el ≠ el' → element (set_property el name value w) el' = element w el'.
Proof.
  intros Hne. unfold set_property. rewrite element_log.
  by apply element_update_ne.
Qed.

Lemma rect_set_property w el el' name value :
  rect (element (set_property el name value w) el') = rect (element w el').
Proof.
  unfold set_property. rewrite element_log.
  destruct (decide (el = el')) as [->|Hne].
  - by rewrite element_update_eq, rect_with_style.
  - by rewrite element_update_ne.
Qed.

Lemma trace_set_property w el name value :
  trace (set_property el name value w) = trace w ++ [SetProperty el name value].
Proof. by destruct w. Qed.

Lemma elements_set_property w el name value :
  elements (set_property el name value w)
  = <[el := element (set_property el name value w) el]> (elements w).
Proof.
  unfold set_property. rewrite element_log, element_update_eq.
  by destruct w.
Qed.

(** [set_property] touches the elements and the trace only. *)
Lemma set_property_frame w el name value :
  let w' := set_property el name value w in
  innerWidth w' = innerWidth w ∧ innerHeight w' = innerHeight w ∧
  resize_registered w' = resize_registered w ∧ refs w' = refs w ∧
  dataset w' = dataset w ∧ timeout w' = timeout w ∧
  idle_callbacks w' = idle_callbacks w ∧ now w' = now w.
Proof. by destruct w. Qed.

(** ** Recomputing the position *)

Lemma updatePosition_present w p t :
  refs w !! "popover" = Some p →
  refs w !! "trigger" = Some t →
  updatePosition w
  = Ok tt (anchored p (rect (element w t)) (innerWidth w) (innerHeight w) w).
Proof.
  intros Hp Ht. destruct w as [els iw ih reg rs ds tm idle clk tr].
  simpl in Hp, Ht.
  unfold updatePosition, bind, refs_popover, refs_trigger, gets. simpl.
  rewrite Hp, Ht. reflexivity.
Qed.

Lemma updatePosition_absent w :
  refs w !! "popover" = None ∨ refs w !! "trigger" = None →
  updatePosition w = Ok tt w.
Proof.
  intros Hno. unfold updatePosition, bind, refs_popover, refs_trigger, gets.
  destruct (refs w !! "popover") as [p|], (refs w !! "trigger") as [t|];
    try reflexivity.
  destruct Hno; discriminate.
Qed.

Lemma anchor_style_again (s : gmap string string) (a b c d : string) :
  anchor_style a b c d (anchor_style a b c d s) = anchor_style a b c d s.
Proof.
  unfold anchor_style. apply map_eq. intros k.
  rewrite !lookup_insert. repeat case_decide; congruence.
Qed.

Lemma anchor_style_lookup (s : gmap string string) (a b c d : string) :
  anchor_style a b c d s !! "--anchor-top" = Some a ∧
  anchor_style a b c d s !! "--anchor-left" = Some d ∧
  anchor_style a b c d s !! "--anchor-right" = Some b ∧
  anchor_style a b c d s !! "--anchor-bottom" = Some c.
Proof. unfold anchor_style. repeat split; by simplify_map_eq. Qed.

(** The element the four writes leave at [p]. *)
Lemma element_anchored w p (R : DOMRect) (W Ht : num) :
  element (anchored p R W Ht w) p
  = with_style
      (anchor_style (to_string (rect_top R)) (to_string (minus W (rect_right R)))
         (to_string (minus Ht (rect_bottom R))) (to_string (rect_left R))
         (style (element w p)))
      (element w p).
Proof.
  unfold anchored, anchor_style.
  rewrite !element_set_property_eq by apply to_string_nonempty.
  by rewrite !with_style_with_style, !style_with_style.
Qed.

Lemma trace_anchored w p (R : DOMRect) (W Ht : num) :
  trace (anchored p R W Ht w) = trace w ++
    [SetProperty p "--anchor-top" (to_string (rect_top R));
     SetProperty p "--anchor-right" (to_string (minus W (rect_right R)));
     SetProperty p "--anchor-bottom" (to_string (minus Ht (rect_bottom R)));
     SetProperty p "--anchor-left" (to_string (rect_left R))].
Proof.
  unfold anchored. rewrite !trace_set_property, <- !app_assoc. reflexivity.
Qed.

Lemma elements_anchored w p (R : DOMRect) (W Ht : num) :
  elements (anchored p R W Ht w)
  = <[p := element (anchored p R W Ht w) p]> (elements w).
Proof.
  unfold anchored. by rewrite !elements_set_property, !insert_insert_eq.
Qed.

Lemma anchored_frame w p (R : DOMRect) (W Ht : num) :
  let w' := anchored p R W Ht w in
  innerWidth w' = innerWidth w ∧ innerHeight w' = innerHeight w ∧
  resize_registered w' = resize_registered w ∧ refs w' = refs w ∧
  dataset w' = dataset w ∧ timeout w' = timeout w ∧
  idle_callbacks w' = idle_callbacks w ∧ now w' = now w.
Proof. by destruct w. Qed.

Lemma rect_anchored w p el (R : DOMRect) (W Ht : num) :
  rect (element (anchored p R W Ht w) el) = rect (element w el).
Proof. unfold anchored. by rewrite !rect_set_property. Qed.

(** C1: for every trigger rectangle [R] and viewport size [(W, Ht)], when
    both references are present the recomputation returns normally, the
    writes it performs on the popover are exactly the four anchor
    declarations, and afterwards the popover carries top = [R.top],
    left = [R.left], right = [W - R.right] and bottom = [Ht - R.bottom]. *)
Theorem updatePosition_anchors w p t (R : DOMRect) (W Ht : num) :
  refs w !! "popover" = Some p →
  refs w !! "trigger" = Some t →
  rect (element w t) = R →
  innerWidth w = W →
  innerHeight w = Ht →
  ∃ w', updatePosition w = Ok tt w' ∧
    trace w' = trace w ++
      [SetProperty p "--anchor-top" (to_string (rect_top R));
       SetProperty p "--anchor-right" (to_string (minus W (rect_right R)));
       SetProperty p "--anchor-bottom" (to_string (minus Ht (rect_bottom R)));
       SetProperty p "--anchor-left" (to_string (rect_left R))] ∧
    style (element w' p) !! "--anchor-top" = Some (to_string (rect_top R)) ∧
    style (element w' p) !! "--anchor-left" = Some (to_string (rect_left R)) ∧
    style (element w' p) !! "--anchor-right"
      = Some (to_string (minus W (rect_right R))) ∧
    style (element w' p) !! "--anchor-bottom"
      = Some (to_string (minus Ht (rect_bottom R))).
Proof.
  intros Hp Ht' <- <- <-. eexists. split; [by apply updatePosition_present|].
  split; [apply trace_anchored|].
  rewrite element_anchored, style_with_style. apply anchor_style_lookup.
Qed.

Lemma async_updatePosition_absent w :
  refs w !! "popover" = None ∨ refs w !! "trigger" = None →
  async updatePosition w = Ok tt w.
Proof.
  intros Hno. unfold async. by rewrite (updatePosition_absent w Hno).
Qed.

(** C4: when the popover reference or the trigger reference is absent, the
    recomputation returns normally and leaves the whole world, and so every
    declaration of every element, as it was. *)
Theorem updatePosition_missing_ref w :
  refs w !! "popover" = None ∨ refs w !! "trigger" = None →
  updatePosition w = Ok tt w ∧ async updatePosition w = Ok tt w.
Proof.
  intros Hno. split.
  - by apply updatePosition_absent.
  - by apply async_updatePosition_absent.
Qed.

(** C8: two recomputations in succession, with nothing changed in between,
    both return normally.  With both references present each of them
    performs exactly the four writes of top = [R.top],
    right = [W - R.right], bottom = [Ht - R.bottom] and left = [R.left] on
    the popover, for the trigger rectangle [R] and the viewport [(W, Ht)]
    of the first call, and the popover carries these four values after the
    first and after the second; the second leaves every element as the
    first left it.  With a reference absent neither changes anything. *)
Theorem updatePosition_twice w :
  ∃ w1 w2,
    updatePosition w = Ok tt w1 ∧
    updatePosition w1 = Ok tt w2 ∧
    elements w2 = elements w1 ∧
    (∀ p t, refs w !! "popover" = Some p → refs w !! "trigger" = Some t →
       let top := to_string (rect_top (rect (element w t))) in
       let right := to_string (minus (innerWidth w) (rect_right (rect (element w t)))) in
       let bottom := to_string (minus (innerHeight w) (rect_bottom (rect (element w t)))) in
       let left := to_string (rect_left (rect (element w t))) in
       let writes := [SetProperty p "--anchor-top" top;
                      SetProperty p "--anchor-right" right;
                      SetProperty p "--anchor-bottom" bottom;
                      SetProperty p "--anchor-left" left] in
       trace w1 = trace w ++ writes ∧
       trace w2 = trace w1 ++ writes ∧
       ∀ wi, wi = w1 ∨ wi = w2 →
         style (element wi p) !! "--anchor-top" = Some top ∧
         style (element wi p) !! "--anchor-left" = Some left ∧
         style (element wi p) !! "--anchor-right" = Some right ∧
         style (element wi p) !! "--anchor-bottom" = Some bottom) ∧
    (refs w !! "popover" = None ∨ refs w !! "trigger" = None →
       w1 = w ∧ w2 = w).
Proof.
  destruct (refs w !! "popover") as [p|] eqn:Hp;
    [destruct (refs w !! "trigger") as [t|] eqn:Ht|].
  - set (R := rect (element w t)).
    set (w1 := anchored p R (innerWidth w) (innerHeight w) w).
    destruct (anchored_frame w p R (innerWidth w) (innerHeight w))
      as (HW & HH & _ & Hrefs & _). fold w1 in HW, HH, Hrefs.
    assert (updatePosition w1 = Ok tt (anchored p R (innerWidth w) (innerHeight w) w1))
      as Hup2.
    { rewrite (updatePosition_present w1 p t) by (by rewrite Hrefs).
      subst w1. by rewrite rect_anchored, HW, HH. }
    eexists w1, _. split; [by apply updatePosition_present|].
    split; [exact Hup2|]. split; [|split].
    + rewrite elements_anchored. subst w1.
      rewrite elements_anchored, insert_insert_eq. f_equal.
      rewrite !element_anchored.
      by rewrite with_style_with_style, style_with_style, anchor_style_again.
    + intros p' t' [= <-] [= <-]. cbv zeta. fold R.
      split; [apply trace_anchored|]. split; [apply trace_anchored|].
      intros wi [-> | ->]; subst w1;
        rewrite element_anchored, style_with_style; apply anchor_style_lookup.
    + intros [Hno | Hno]; discriminate.
  - exists w, w. rewrite !(updatePosition_absent w) by auto.
    do 3 (split; [done|]). split; [|done].
    intros p' t' _ [=].
  - exists w, w. rewrite !(updatePosition_absent w) by auto.
    do 3 (split; [done|]). split; [|done].
    intros p' t' [=].
Qed.

(** [#updatePosition] never throws. *)
Lemma updatePosition_returns w : ∃ w1, updatePosition w = Ok tt w1.
Proof.
  destruct (refs w !! "popover") as [p|] eqn:Hp;
    [destruct (refs w !! "trigger") as [t|] eqn:Ht|].
  - eexists. by apply (updatePosition_present w p t).
  - exists w. apply updatePosition_absent. auto.
  - exists w. apply updatePosition_absent. auto.
Qed.

Lemma async_updatePosition w w1 :
  updatePosition w = Ok tt w1 → async updatePosition w = Ok tt w1.
Proof. intros Hup. unfold async. by rewrite Hup. Qed.

(** ** The [beforetoggle] listener *)

Lemma beforetoggle_listener_open w w1 :
  updatePosition w = Ok tt w1 →
  beforetoggle_listener "open" w
  = Ok tt (log (AddEventListener "resize") (with_resize_registered true w1)).
Proof.
  intros Hup. unfold beforetoggle_listener, bind.
  by rewrite (async_updatePosition w w1 Hup).
Qed.

Lemma beforetoggle_listener_other w w1 (newState : string) :
  newState ≠ "open" →
  updatePosition w = Ok tt w1 →
  beforetoggle_listener newState w
  = Ok tt (log (RemoveEventListener "resize") (with_resize_registered false w1)).
Proof.
  intros Hne Hup. unfold beforetoggle_listener, bind.
  rewrite (async_updatePosition w w1 Hup). by destruct (decide (newState = "open")).
Qed.

(** What registering or removing the window listener changes. *)
Lemma listening_frame w (b : bool) (ef : Effect) :
  let w' := log ef (with_resize_registered b w) in
  elements w' = elements w ∧ trace w' = trace w ++ [ef] ∧
  resize_registered w' = b ∧ refs w' = refs w ∧ dataset w' = dataset w ∧
  timeout w' = timeout w ∧ idle_callbacks w' = idle_callbacks w ∧
  now w' = now w ∧ innerWidth w' = innerWidth w ∧ innerHeight w' = innerHeight w.
Proof. by destruct w. Qed.

(** C2, as the code has it: on every state-change notification the listener
    first recomputes the position, which never throws, and only then touches
    the window: it registers the resize listener when the new state is
    [open] and removes it for every other new state.  The recomputation is
    not skipped on a transition to a non-open state. *)
Theorem beforetoggle_listener_recomputes_then_listens w (newState : string) :
  ∃ w1 w',
    updatePosition w = Ok tt w1 ∧
    beforetoggle_listener newState w = Ok tt w' ∧
    elements w' = elements w1 ∧
    (newState = "open" →
       trace w' = trace w1 ++ [AddEventListener "resize"] ∧
       resize_registered w' = true) ∧
    (newState ≠ "open" →
       trace w' = trace w1 ++ [RemoveEventListener "resize"] ∧
       resize_registered w' = false).
Proof.
  destruct (updatePosition_returns w) as [w1 Hup].
  destruct (decide (newState = "open")) as [->|Hne].
  - destruct (listening_frame w1 true (AddEventListener "resize"))
      as (Hel & Htr & Hreg & _).
    eexists w1, _. split; [done|].
    split; [by apply beforetoggle_listener_open|]. by repeat split.
  - destruct (listening_frame w1 false (RemoveEventListener "resize"))
      as (Hel & Htr & Hreg & _).
    eexists w1, _. split; [done|].
    split; [by apply beforetoggle_listener_other|]. by repeat split.
Qed.

(** ** What a recomputation leaves alone *)

Lemma restyled_refl w : restyled w w.
Proof. by repeat split. Qed.

Lemma restyled_trans w1 w2 w3 : restyled w1 w2 → restyled w2 w3 → restyled w1 w3.
Proof.
  intros (?&?&?&?&?&?&?&?&Hel) (?&?&?&?&?&?&?&?&Hel').
  repeat split; try congruence.
  all: destruct (Hel el) as (?&?&?), (Hel' el) as (?&?&?); congruence.
Qed.

Lemma count_closes_app (tr tr' : list Effect) :
  count_closes (tr ++ tr') = count_closes tr + count_closes tr'.
Proof.
  induction tr as [|ef tr IH]; [done|]. destruct ef; simpl; by rewrite ?IH.
Qed.

Lemma restyled_set_property w el name value :
  restyled w (set_property el name value w).
Proof.
  destruct (set_property_frame w el name value) as (?&?&?&?&?&?&?&?).
  do 7 (split; [done|]). split.
  { rewrite trace_set_property, count_closes_app. simpl. lia. }
  intros el'. split; [apply rect_set_property|].
  unfold set_property. rewrite element_log.
  destruct (decide (el = el')) as [->|Hne].
  - rewrite element_update_eq. by destruct (element w el').
  - by rewrite element_update_ne.
Qed.

Lemma restyled_anchored w p (R : DOMRect) (W Ht : num) :
  restyled w (anchored p R W Ht w).
Proof.
  unfold anchored.
  repeat (eapply restyled_trans; [|apply restyled_set_property]).
  apply restyled_refl.
Qed.

Lemma updatePosition_restyled w w1 :
  updatePosition w = Ok tt w1 →
  restyled w w1 ∧ resize_registered w1 = resize_registered w.
Proof.
  destruct (refs w !! "popover") as [p|] eqn:Hp;
    [destruct (refs w !! "trigger") as [t|] eqn:Ht|].
  - rewrite (updatePosition_present w p t Hp Ht). intros [= <-].
    split; [apply restyled_anchored|].
    by destruct (anchored_frame w p (rect (element w t)) (innerWidth w)
                   (innerHeight w)) as (_&_&?&_).
  - rewrite updatePosition_absent by auto. intros [= <-].
    split; [apply restyled_refl|done].
  - rewrite updatePosition_absent by auto. intros [= <-].
    split; [apply restyled_refl|done].
Qed.

Lemma restyled_listening w (b : bool) (ef : Effect) :
  count_closes [ef] = 0 →
  restyled w (log ef (with_resize_registered b w)).
Proof.
  intros Hef. destruct w as [els iw ih reg rs ds tm idle clk tr].
  repeat split; try done.
  cbn [trace log with_resize_registered]. rewrite count_closes_app. lia.
Qed.

(** The listener returns normally, and leaves the registration as the new
    state says. *)
Lemma beforetoggle_listener_restyled w (newState : string) :
  ∃ w', beforetoggle_listener newState w = Ok tt w' ∧ restyled w w' ∧
        resize_registered w' = bool_decide (newState = "open").
Proof.
  destruct (updatePosition_returns w) as [w1 Hup].
  destruct (updatePosition_restyled w w1 Hup) as [Hre _].
  destruct (decide (newState = "open")) as [->|Hne].
  - eexists. split; [by apply beforetoggle_listener_open|].
    split; [|by destruct w1].
    eapply restyled_trans; [exact Hre|]. by apply restyled_listening.
  - eexists. split; [by apply beforetoggle_listener_other|].
    split; [|rewrite bool_decide_eq_false_2 by done; by destruct w1].
    eapply restyled_trans; [exact Hre|]. by apply restyled_listening.
Qed.

Lemma each_listener_restyled (n : nat) w (newState : string) :
  ∃ w', each_listener n (beforetoggle_listener newState) w = Ok tt w' ∧
        restyled w w' ∧
        resize_registered w'
        = (if n is 0 then resize_registered w
           else bool_decide (newState = "open")).
Proof.
  revert w. induction n as [|n IH]; intros w.
  - exists w. split; [done|]. split; [apply restyled_refl|done].
  - destruct (beforetoggle_listener_restyled w newState) as (w1 & Hl & Hre & Hreg).
    destruct (IH w1) as (w2 & Hrest & Hre2 & Hreg2).
    exists w2. split.
    { cbn [each_listener]. unfold bind at 1. by rewrite Hl. }
    split; [by eapply restyled_trans|].
    rewrite Hreg2. by destruct n.
Qed.

(** C3: on every open transition the recomputation has run to its end
    before the resize listener is registered: the writes of the
    recomputation come first in the trace, the registration is untouched
    while they are made, registering is the last effect of the listener, and
    the world in which the listener becomes registered has the elements the
    recomputation left.  With both references present the writes are the
    four anchor declarations, all of them, and the popover carries the four
    values at that moment. *)
Theorem open_transition_recomputes_before_listening w :
  ∃ w1 w' writes,
    updatePosition w = Ok tt w1 ∧
    trace w1 = trace w ++ writes ∧
    resize_registered w1 = resize_registered w ∧
    beforetoggle_listener "open" w = Ok tt w' ∧
    trace w' = trace w ++ writes ++ [AddEventListener "resize"] ∧
    resize_registered w' = true ∧
    elements w' = elements w1 ∧
    ∀ p t,
      refs w !! "popover" = Some p →
      refs w !! "trigger" = Some t →
      let R := rect (element w t) in
      let top := to_string (rect_top R) in
      let right := to_string (minus (innerWidth w) (rect_right R)) in
      let bottom := to_string (minus (innerHeight w) (rect_bottom R)) in
      let left := to_string (rect_left R) in
      writes = [SetProperty p "--anchor-top" top;
                SetProperty p "--anchor-right" right;
                SetProperty p "--anchor-bottom" bottom;
                SetProperty p "--anchor-left" left] ∧
      style (element w' p) !! "--anchor-top" = Some top ∧
      style (element w' p) !! "--anchor-right" = Some right ∧
      style (element w' p) !! "--anchor-bottom" = Some bottom ∧
      style (element w' p) !! "--anchor-left" = Some left.
Proof.
  destruct (updatePosition_returns w) as [w1 Hup].
  destruct (updatePosition_restyled w w1 Hup) as [_ Hreg].
  destruct (listening_frame w1 true (AddEventListener "resize"))
    as (Hel' & Htr' & Hreg' & _).
  assert (∃ writes, trace w1 = trace w ++ writes) as [writes Htr].
  { destruct (refs w !! "popover") as [p|] eqn:Hp;
      [destruct (refs w !! "trigger") as [t|] eqn:Ht|].
    - rewrite (updatePosition_present w p t Hp Ht) in Hup. injection Hup as <-.
      eexists. apply trace_anchored.
    - rewrite updatePosition_absent in Hup by auto. injection Hup as <-.
      exists []. by rewrite app_nil_r.
    - rewrite updatePosition_absent in Hup by auto. injection Hup as <-.
      exists []. by rewrite app_nil_r. }
  exists w1, (log (AddEventListener "resize") (with_resize_registered true w1)), writes.
  split; [exact Hup|]. split; [exact Htr|]. split; [exact Hreg|].
  split; [by apply beforetoggle_listener_open|].
  split; [by rewrite Htr', Htr, <- app_assoc|].
  split; [exact Hreg'|]. split; [exact Hel'|].
  intros p t Hp Ht R top right bottom left.
  rewrite (updatePosition_present w p t Hp Ht) in Hup. injection Hup as Hw1.
  fold R in Hw1.
  split.
  { apply (app_inv_head (trace w)). rewrite <- Htr, <- Hw1. apply trace_anchored. }
  unfold element. rewrite Hel', <- Hw1.
  fold (element (anchored p R (innerWidth w) (innerHeight w) w) p).
  rewrite element_anchored, style_with_style. subst top right bottom left.
  destruct (anchor_style_lookup (style (element w p))
              (to_string (rect_top R))
              (to_string (minus (innerWidth w) (rect_right R)))
              (to_string (minus (innerHeight w) (rect_bottom R)))
              (to_string (rect_left R))) as (? & ? & ? & ?).
  done.
Qed.

(** ** Showing and hiding *)

Lemma toggled_same w el :
  toggled el (popover_open (element w el)) w w.
Proof.
  repeat split; try done. by destruct (decide (el' = el)) as [->|].
Qed.

Lemma toggled_update w w1 el (b : bool) :
  restyled w w1 →
  toggled el b w (update_element el (with_popover_open b) w1).
Proof.
  intros (?&?&?&?&?&?&?&?&Hel).
  assert (∀ el', element (update_element el (with_popover_open b) w1) el'
                 = if decide (el' = el) then with_popover_open b (element w1 el)
                   else element w1 el') as Hlook.
  { intros el'. destruct (decide (el' = el)) as [->|Hne].
    - apply element_update_eq.
    - by apply element_update_ne. }
  destruct w1 as [els iw ih reg rs ds tm idle clk tr].
  repeat split; try done.
  all: rewrite Hlook; destruct (Hel el') as (?&?&?), (Hel el) as (?&?&?).
  all: destruct (decide (el' = el)) as [->|]; try done.
  all: by destruct (element _ el).
Qed.

Lemma show_popover_spec w el :
  ∃ w', show_popover el w = Ok tt w' ∧ toggled el true w w' ∧
    resize_registered w'
    = (if popover_open (element w el) then resize_registered w
       else registered_after (beforetoggle_listeners (element w el)) true
              (resize_registered w)).
Proof.
  unfold show_popover, bind, gets.
  destruct (popover_open (element w el)) eqn:Hopen.
  - exists w. split; [done|]. split; [|done].
    rewrite <- Hopen. apply toggled_same.
  - unfold dispatch_beforetoggle, bind, gets.
    destruct (each_listener_restyled (beforetoggle_listeners (element w el)) w "open")
      as (w1 & -> & Hre & Hreg).
    eexists. split; [reflexivity|]. split; [by apply toggled_update|].
    transitivity (resize_registered w1); [by destruct w1|].
    rewrite Hreg. by destruct (beforetoggle_listeners _).
Qed.

Lemma hide_popover_spec w el :
  ∃ w', hide_popover el w = Ok tt w' ∧ toggled el false w w' ∧
    resize_registered w'
    = (if popover_open (element w el)
       then registered_after (beforetoggle_listeners (element w el)) false
              (resize_registered w)
       else resize_registered w).
Proof.
  unfold hide_popover, bind, gets.
  destruct (popover_open (element w el)) eqn:Hopen.
  - unfold dispatch_beforetoggle, bind, gets.
    destruct (each_listener_restyled (beforetoggle_listeners (element w el)) w "closed")
      as (w1 & -> & Hre & Hreg).
    eexists. split; [reflexivity|]. split; [by apply toggled_update|].
    transitivity (resize_registered w1); [by destruct w1|].
    rewrite Hreg. by destruct (beforetoggle_listeners _).
  - exists w. split; [done|]. split; [|done].
    rewrite <- Hopen. apply toggled_same.
Qed.

(** ** The resize listener *)

Lemma truthy_Some (el : nat) : truthy (Some el) = true.
Proof. reflexivity. Qed.

Lemma resize_callback_falsy w :
  truthy_string (dataset w !! "closeOnResize") = false →
  resize_callback w = Ok tt w.
Proof.
  intros Hflag. unfold resize_callback, bind, dataset_closeOnResize, gets.
  by rewrite Hflag.
Qed.

Lemma resize_callback_no_popover w :
  refs w !! "popover" = None → resize_callback w = Ok tt w.
Proof.
  intros Hp. unfold resize_callback, bind, dataset_closeOnResize, gets.
  destruct (truthy_string _); [|done].
  unfold refs_popover, gets. by rewrite Hp.
Qed.

Lemma resize_callback_not_open w p :
  refs w !! "popover" = Some p →
  popover_open (element w p) = false →
  resize_callback w = Ok tt w.
Proof.
  intros Hp Hopen. unfold resize_callback, bind, dataset_closeOnResize, gets.
  destruct (truthy_string _); [|done].
  unfold refs_popover, gets. rewrite Hp, truthy_Some.
  unfold matches_popover_open, method, gets. by rewrite Hopen.
Qed.

Lemma resize_callback_open w p :
  truthy_string (dataset w !! "closeOnResize") = true →
  refs w !! "popover" = Some p →
  popover_open (element w p) = true →
  resize_callback w = hide_popover p (log (HidePopover p) w).
Proof.
  intros Hflag Hp Hopen. unfold resize_callback, bind, dataset_closeOnResize, gets.
  rewrite Hflag. unfold refs_popover, gets. rewrite Hp, truthy_Some.
  unfold matches_popover_open, method, gets. rewrite Hopen.
  unfold hidePopover, method, bind, modify. reflexivity.
Qed.

Lemma time_passed_refl w : time_passed w w.
Proof. by repeat split. Qed.

Lemma time_passed_trans w1 w2 w3 :
  time_passed w1 w2 → time_passed w2 w3 → time_passed w1 w3.
Proof.
  intros (?&?&?&?&?&?&?&?) (?&?&?&?&?&?&?&?). repeat split; congruence.
Qed.

Lemma time_passed_with_now w (t : nat) : time_passed w (with_now t w).
Proof. by destruct w. Qed.

Lemma time_passed_with_timeout w (t : option nat) : time_passed w (with_timeout t w).
Proof. by destruct w. Qed.

Lemma dispatch_resize_registered w :
  resize_registered w = true →
  dispatch_resize w = Ok tt (with_timeout (Some (now w + 100)) w).
Proof.
  intros Hreg. unfold dispatch_resize, bind, gets. by rewrite Hreg.
Qed.

Lemma dispatch_resize_unregistered w :
  resize_registered w = false → dispatch_resize w = Ok tt w.
Proof.
  intros Hreg. unfold dispatch_resize, bind, gets. by rewrite Hreg.
Qed.

Lemma dispatch_resize_time_passed w :
  ∃ w', dispatch_resize w = Ok tt w' ∧ time_passed w w'.
Proof.
  destruct (resize_registered w) eqn:Hreg.
  - rewrite dispatch_resize_registered by done.
    eexists. split; [done|]. apply time_passed_with_timeout.
  - rewrite dispatch_resize_unregistered by done.
    eexists. split; [done|]. apply time_passed_refl.
Qed.

Lemma elapse_no_timer w (d : nat) :
  timeout w = None → elapse d w = Ok tt (with_now (now w + d) w).
Proof. intros Hno. unfold elapse, bind, gets. by rewrite Hno. Qed.

Lemma elapse_early w (d t : nat) :
  timeout w = Some t → now w + d < t →
  elapse d w = Ok tt (with_now (now w + d) w).
Proof.
  intros Ht Hlt. unfold elapse, bind, gets. rewrite Ht.
  destruct (decide (t ≤ now w + d)); [lia|done].
Qed.

Lemma elapse_due w (d t : nat) :
  timeout w = Some t → t ≤ now w + d →
  elapse d w
  = match resize_callback (at_deadline t w) with
    | Ok _ w' => Ok tt (with_now (now w + d) w')
    | Throw ex w' => Throw ex w'
    end.
Proof.
  intros Ht Hle. unfold elapse, bind, gets. rewrite Ht.
  destruct (decide (t ≤ now w + d)); [|lia].
  unfold run_timeout, bind, modify, at_deadline.
  by destruct (resize_callback _).
Qed.

Lemma time_passed_at_deadline w (t : nat) : time_passed w (at_deadline t w).
Proof. by destruct w. Qed.

Lemma elapse_falsy w (d : nat) :
  truthy_string (dataset w !! "closeOnResize") = false →
  ∃ w', elapse d w = Ok tt w' ∧ time_passed w w'.
Proof.
  intros Hflag. destruct (timeout w) as [t|] eqn:Ht.
  - destruct (decide (t ≤ now w + d)) as [Hle|Hgt].
    + rewrite (elapse_due w d t Ht Hle).
      pose proof (time_passed_at_deadline w t) as Hpass.
      rewrite resize_callback_falsy.
      * eexists. split; [done|].
        eapply time_passed_trans; [exact Hpass|]. apply time_passed_with_now.
      * destruct Hpass as (_&_&_&_&->&_). exact Hflag.
    + rewrite (elapse_early w d t Ht) by lia.
      eexists. split; [done|]. apply time_passed_with_now.
  - rewrite elapse_no_timer by done.
    eexists. split; [done|]. apply time_passed_with_now.
Qed.

(** C6: with the [data-close-on-resize] attribute absent, the debounced
    callback returns the world as it found it, and resize events of any
    number and at any spacing leave every element, the trace (so no close
    action is performed), the registration and the component's own fields as
    they were; only the clock and the timer move. *)
Theorem resizes_without_flag w (gaps : list nat) :
  dataset w !! "closeOnResize" = None →
  resize_callback w = Ok tt w ∧
  ∃ w', resizes gaps w = Ok tt w' ∧
    elements w' = elements w ∧ trace w' = trace w ∧
    resize_registered w' = resize_registered w ∧
    refs w' = refs w ∧ dataset w' = dataset w.
Proof.
  intros Hflag. split; [apply resize_callback_falsy; by rewrite Hflag|].
  cut (∃ w', resizes gaps w = Ok tt w' ∧ time_passed w w').
  { intros (w' & Hrun & (?&?&?&?&?&_)). by exists w'. }
  revert w Hflag. induction gaps as [|d gaps IH]; intros w Hflag.
  - exists w. split; [done|]. apply time_passed_refl.
  - destruct (dispatch_resize_time_passed w) as (wa & Hres & Ha).
    assert (dataset wa = dataset w) as Hda by (by destruct Ha as (_&_&_&_&?&_)).
    destruct (elapse_falsy wa d) as (wb & Hel & Hb).
    { by rewrite Hda, Hflag. }
    assert (dataset wb = dataset wa) as Hdb by (by destruct Hb as (_&_&_&_&?&_)).
    destruct (IH wb) as (w' & Hrun & Hc).
    { by rewrite Hdb, Hda. }
    exists w'. split.
    + cbn [resizes]. unfold bind. by rewrite Hres, Hel.
    + eapply time_passed_trans; [exact Ha|].
      eapply time_passed_trans; [exact Hb|exact Hc].
Qed.

(** The callback returns normally; it either does nothing or performs one
    close action on the open popover. *)
Lemma resize_callback_cases w :
  ∃ w1, resize_callback w = Ok tt w1 ∧
    (w1 = w ∨
     ∃ p, truthy_string (dataset w !! "closeOnResize") = true ∧
          refs w !! "popover" = Some p ∧
          popover_open (element w p) = true ∧
          toggled p false (log (HidePopover p) w) w1 ∧
          resize_registered w1
          = registered_after (beforetoggle_listeners (element w p)) false
              (resize_registered w)).
Proof.
  destruct (truthy_string (dataset w !! "closeOnResize")) eqn:Hflag;
    [|exists w; split; [by apply resize_callback_falsy|by left]].
  destruct (refs w !! "popover") as [p|] eqn:Hp;
    [|exists w; split; [by apply resize_callback_no_popover|by left]].
  destruct (popover_open (element w p)) eqn:Hopen;
    [|exists w; split; [by apply (resize_callback_not_open w p)|by left]].
  rewrite (resize_callback_open w p) by done.
  destruct (hide_popover_spec (log (HidePopover p) w) p) as (w1 & Hhide & Htog & Hreg).
  exists w1. split; [done|]. right. exists p.
  do 3 (split; [done|]). split; [exact Htog|].
  rewrite Hreg, element_log, Hopen. by destruct w.
Qed.

Lemma count_closes_log_hide w p :
  count_closes (trace (log (HidePopover p) w)) = S (count_closes (trace w)).
Proof.
  destruct w as [els iw ih reg rs ds tm idle clk tr].
  cbn [trace log]. rewrite count_closes_app. simpl. lia.
Qed.

(** X1: the flag is read when the callback runs: whatever [dataset] held
    before, the callback follows the value the attribute has at that
    moment.  It closes the open popover when the value is a string that is
    not empty, and does nothing when the attribute is absent or empty. *)
Theorem resize_callback_reads_flag_when_called w p (v : string) :
  refs w !! "popover" = Some p →
  popover_open (element w p) = true →
  let w_set := with_dataset (<["closeOnResize" := v]> (dataset w)) w in
  let w_del := with_dataset (delete "closeOnResize" (dataset w)) w in
  resize_callback w_del = Ok tt w_del ∧
  (v = "" → resize_callback w_set = Ok tt w_set) ∧
  (v ≠ "" →
   ∃ w', resize_callback w_set = Ok tt w' ∧
         count_closes (trace w') = S (count_closes (trace w)) ∧
         popover_open (element w' p) = false).
Proof.
  intros Hp Hopen w_set w_del.
  assert (dataset w_del !! "closeOnResize" = None) as Hdel.
  { subst w_del. destruct w. cbn. apply lookup_delete_eq. }
  assert (dataset w_set !! "closeOnResize" = Some v) as Hset.
  { subst w_set. destruct w. cbn. apply lookup_insert_eq. }
  assert (refs w_set = refs w ∧ trace w_set = trace w ∧
          ∀ el, element w_set el = element w el) as (Hrefs & Htr & Hel).
  { subst w_set. by destruct w. }
  split; [apply resize_callback_falsy; by rewrite Hdel|].
  split.
  - intros ->. apply resize_callback_falsy. by rewrite Hset.
  - intros Hv.
    rewrite (resize_callback_open w_set p).
    + destruct (hide_popover_spec (log (HidePopover p) w_set) p)
        as (w' & Hhide & Htog & _).
      exists w'. split; [done|].
      destruct Htog as (_&_&_&_&_&_&_&Hcount&Hp').
      split; [by rewrite Hcount, count_closes_log_hide, Htr|].
      destruct (Hp' p) as (_ & -> & _). by destruct (decide (p = p)).
    + rewrite Hset. cbn. by rewrite bool_decide_eq_false_2.
    + by rewrite Hrefs.
    + by rewrite Hel.
Qed.

(** ** A burst of resize events *)

Lemma burst_nil w : burst [] w = dispatch_resize w.
Proof. reflexivity. Qed.

Lemma burst_cons w (d : nat) (gaps : list nat) :
  burst (d :: gaps) w
  = match dispatch_resize w with
    | Ok _ wa =>
        match elapse d wa with
        | Ok _ wb => burst gaps wb
        | Throw ex wb => Throw ex wb
        end
    | Throw ex wa => Throw ex wa
    end.
Proof.
  unfold burst. cbn [resizes]. unfold bind.
  destruct (dispatch_resize w); [|done]. by destruct (elapse d _).
Qed.

Lemma burst_arms_last w (gaps : list nat) :
  resize_registered w = true →
  sum_list gaps < 100 →
  burst gaps w = Ok tt (armed (now w + sum_list gaps) w).
Proof.
  revert w. induction gaps as [|d gaps IH]; intros w Hreg Hsum.
  - rewrite burst_nil, dispatch_resize_registered by done.
    destruct w as [els iw ih reg rs ds tm idle clk tr]. simpl.
    unfold armed. simpl. by rewrite Nat.add_0_r.
  - simpl in Hsum. rewrite burst_cons, dispatch_resize_registered by done.
    rewrite (elapse_early _ d (now w + 100)).
    + rewrite IH.
      * destruct w as [els iw ih reg rs ds tm idle clk tr]. simpl.
        unfold armed. simpl. by rewrite Nat.add_assoc.
      * by destruct w.
      * lia.
    + by destruct w.
    + destruct w; simpl; lia.
Qed.

Lemma time_passed_armed w (T : nat) : time_passed w (armed T w).
Proof. by destruct w. Qed.

Lemma with_now_frame w (T : nat) :
  trace (with_now T w) = trace w ∧ elements (with_now T w) = elements w.
Proof. by destruct w. Qed.

(** C5: a burst of [S (length gaps)] resize events that fits in one window
    of 100 ms, arriving while the listener is registered, leaves exactly
    what its last event alone would have left: the elements and the trace
    are untouched and the timer is due 100 ms after the last event.  The
    callback therefore runs at most once, at that deadline, and performs at
    most one close action; with a truthy flag and the popover open it
    performs exactly one, and the popover is closed afterwards. *)
Theorem resize_burst_closes_at_most_once w (gaps : list nat) (d : nat) :
  resize_registered w = true →
  sum_list gaps < 100 →
  let T := now w + sum_list gaps in
  burst gaps w = dispatch_resize (with_now T w) ∧
  ∃ wb w',
    burst gaps w = Ok tt wb ∧
    trace wb = trace w ∧ elements wb = elements w ∧
    timeout wb = Some (T + 100) ∧ now wb = T ∧
    elapse d wb = Ok tt w' ∧
    count_closes (trace w') ≤ S (count_closes (trace w)) ∧
    (d < 100 → trace w' = trace w ∧ elements w' = elements w) ∧
    (100 ≤ d →
       ∃ w1, now (at_deadline (T + 100) wb) = T + 100 ∧
             resize_callback (at_deadline (T + 100) wb) = Ok tt w1 ∧
             w' = with_now (T + d) w1) ∧
    (100 ≤ d →
       ∀ p, truthy_string (dataset w !! "closeOnResize") = true →
            refs w !! "popover" = Some p →
            popover_open (element w p) = true →
            count_closes (trace w') = S (count_closes (trace w)) ∧
            popover_open (element w' p) = false).
Proof.
  intros Hreg Hsum T.
  pose proof (burst_arms_last w gaps Hreg Hsum) as Hburst. fold T in Hburst.
  split.
  { rewrite Hburst, dispatch_resize_registered by (by destruct w).
    by destruct w. }
  pose proof (time_passed_armed w T) as (Hels & Htr & _ & Hrefs & Hdata & _).
  assert (timeout (armed T w) = Some (T + 100)) as Htm by (by destruct w).
  assert (now (armed T w) = T) as Hnow by (by destruct w).
  revert Hburst Hels Htr Hrefs Hdata Htm Hnow.
  generalize (armed T w). intros wb Hburst Hels Htr Hrefs Hdata Htm Hnow.
  destruct (decide (d < 100)) as [Hd|Hd].
  - (* the wait ends before the deadline *)
    exists wb, (with_now (now wb + d) wb).
    destruct (with_now_frame wb (now wb + d)) as [Htr' Hels'].
    do 5 (split; [done|]).
    split; [apply elapse_early with (t := T + 100); [done|lia]|].
    split; [rewrite Htr', Htr; lia|].
    split; [intros _; split; congruence|].
    split; intros; lia.
  - (* the timer fires once, at the deadline *)
    pose proof (time_passed_at_deadline wb (T + 100))
      as (Hels2 & Htr2 & _ & Hrefs2 & Hdata2 & _).
    assert (now (at_deadline (T + 100) wb) = T + 100) as Hnow2.
    { destruct wb; simpl in *. lia. }
    destruct (resize_callback_cases (at_deadline (T + 100) wb))
      as (w1 & Hcb & Hcases).
    exists wb, (with_now (now wb + d) w1).
    destruct (with_now_frame w1 (now wb + d)) as [Htr' Hels'].
    do 5 (split; [done|]).
    split.
    { rewrite (elapse_due wb d (T + 100)) by (done || lia). by rewrite Hcb. }
    split.
    { rewrite Htr'. destruct Hcases as [->|(p & _ & _ & _ & Htog & _)].
      - rewrite Htr2, Htr. lia.
      - destruct Htog as (_&_&_&_&_&_&_&->&_).
        rewrite count_closes_log_hide, Htr2, Htr. lia. }
    split; [intros; lia|].
    split; [intros _; exists w1; by rewrite Hnow|].
    intros _ p Hflag Hp Hopen.
    destruct Hcases as [->|(p' & _ & Hp' & _ & Htog & _)].
    + (* the callback cannot have done nothing *)
      exfalso.
      assert (resize_callback (at_deadline (T + 100) wb)
              = hide_popover p (log (HidePopover p) (at_deadline (T + 100) wb)))
        as Hopen'.
      { apply resize_callback_open.
        - by rewrite Hdata2, Hdata.
        - by rewrite Hrefs2, Hrefs.
        - unfold element. by rewrite Hels2, Hels. }
      destruct (hide_popover_spec (log (HidePopover p) (at_deadline (T + 100) wb)) p)
        as (w2 & Hhide & Htog & _).
      rewrite Hopen', Hhide in Hcb. injection Hcb as Heq. subst w2.
      destruct Htog as (_&_&_&_&_&_&_&Hcount&_).
      rewrite count_closes_log_hide in Hcount. lia.
    + rewrite Hrefs2, Hrefs, Hp in Hp'. injection Hp' as <-.
      destruct Htog as (_&_&_&_&_&_&_&Hcount&Hel).
      split.
      * rewrite Htr', Hcount, count_closes_log_hide, Htr2, Htr. done.
      * unfold element. rewrite Hels'. destruct (Hel p) as (_ & Hop & _).
        unfold element in Hop. rewrite Hop. by destruct (decide (p = p)).
Qed.

(** ** Attaching without a popover *)

(** A popover that carries none of the component's listeners opens and
    closes without the component taking part. *)
Lemma show_popover_unobserved w el :
  beforetoggle_listeners (element w el) = 0 →
  show_popover el w
  = Ok tt (if popover_open (element w el) then w
           else update_element el (with_popover_open true) w).
Proof.
  intros Hn. unfold show_popover, bind, gets.
  destruct (popover_open (element w el)); [done|].
  unfold dispatch_beforetoggle, bind, gets. by rewrite Hn.
Qed.

Lemma hide_popover_unobserved w el :
  beforetoggle_listeners (element w el) = 0 →
  hide_popover el w
  = Ok tt (if popover_open (element w el)
           then update_element el (with_popover_open false) w else w).
Proof.
  intros Hn. unfold hide_popover, bind, gets.
  destruct (popover_open (element w el)); [|done].
  unfold dispatch_beforetoggle, bind, gets. by rewrite Hn.
Qed.

Lemma unobserved_refl w : unobserved w w.
Proof. by repeat split. Qed.

Lemma unobserved_trans w1 w2 w3 :
  unobserved w1 w2 → unobserved w2 w3 → unobserved w1 w3.
Proof.
  intros (?&?&?&?&?&Hel) (?&?&?&?&?&Hel').
  repeat split; try congruence.
  all: destruct (Hel el) as (?&?), (Hel' el) as (?&?); congruence.
Qed.

Lemma unobserved_set_open w el (b : bool) :
  unobserved w (update_element el (with_popover_open b) w).
Proof.
  assert (∀ el', element (update_element el (with_popover_open b) w) el'
                 = if decide (el' = el) then with_popover_open b (element w el)
                   else element w el') as Hlook.
  { intros el'. destruct (decide (el' = el)) as [->|Hne].
    - apply element_update_eq.
    - by apply element_update_ne. }
  split; [by destruct w|]. split; [by destruct w|]. split; [by destruct w|].
  split; [by destruct w|]. split; [by destruct w|].
  intros el'. rewrite Hlook.
  destruct (decide (el' = el)) as [->|]; [|done]. by destruct (element w el).
Qed.

Lemma toggles_unobserved w (evs : list Event) :
  (∀ el, beforetoggle_listeners (element w el) = 0) →
  forallb is_toggle evs = true →
  ∃ w', run evs w = Ok tt w' ∧ unobserved w w'.
Proof.
  revert w. induction evs as [|ev evs IH]; intros w Hzero Hall.
  - exists w. split; [done|apply unobserved_refl].
  - cbn [forallb] in Hall. apply andb_prop in Hall as [Hev Hall].
    assert (∃ w1, handle ev w = Ok tt w1 ∧ unobserved w w1) as (w1 & Hstep & Hun).
    { destruct ev as [| |el|el| | | | | | | | |]; try discriminate; cbn [handle].
      - rewrite show_popover_unobserved by done. eexists. split; [done|].
        destruct (popover_open _);
          [apply unobserved_refl|apply unobserved_set_open].
      - rewrite hide_popover_unobserved by done. eexists. split; [done|].
        destruct (popover_open _);
          [apply unobserved_set_open|apply unobserved_refl]. }
    destruct (IH w1) as (w' & Hrun & Hun'); [|done|].
    { intros el. destruct Hun as (_&_&_&_&_&Hel).
      destruct (Hel el) as [_ ->]. apply Hzero. }
    exists w'. split; [|by eapply unobserved_trans].
    cbn [run]. unfold bind. by rewrite Hstep.
Qed.

Lemma with_idle_callbacks_same w :
  with_idle_callbacks (idle_callbacks w) w = w.
Proof. by destruct w. Qed.

Lemma with_idle_callbacks_twice w (n m : nat) :
  with_idle_callbacks n (with_idle_callbacks m w) = with_idle_callbacks n w.
Proof. by destruct w. Qed.

(** C10: attaching an instance whose popover reference is absent adds no
    [beforetoggle] listener and only queues the idle recomputation.  From
    then on, opening and closing any popover of the document, any number of
    times, runs no recomputation and neither registers nor removes the
    resize listener: the trace, the registration and every style stay as
    they were.  The queued recomputation, run without the reference, leaves
    the world as it was before attaching. *)
Theorem connectedCallback_without_popover w (evs : list Event) :
  fresh_instance w →
  refs w !! "popover" = None →
  forallb is_toggle evs = true →
  let w1 := with_idle_callbacks (S (idle_callbacks w)) w in
  connectedCallback w = Ok tt w1 ∧
  (∀ el, beforetoggle_listeners (element w1 el) = 0) ∧
  (∃ w2, run evs w1 = Ok tt w2 ∧
     trace w2 = trace w ∧
     resize_registered w2 = false ∧
     ∀ el, style (element w2 el) = style (element w el) ∧
           beforetoggle_listeners (element w2 el) = 0) ∧
  run_idle w1 = Ok tt w.
Proof.
  intros Hfresh Hp Hall w1.
  pose proof (λ el, fresh_instance_listeners w el Hfresh) as Hzero.
  destruct Hfresh as [Hreg _].
  assert (∀ el, element w1 el = element w el) as Hel by (by destruct w).
  split.
  { unfold connectedCallback, super_connectedCallback, bind, ret, refs_popover, gets.
    rewrite Hp. reflexivity. }
  split; [intros el; by rewrite Hel|].
  split.
  - destruct (toggles_unobserved w1 evs) as (w2 & Hrun & Hun);
      [intros el; by rewrite Hel|done|].
    destruct Hun as (Htr & Hreg2 & _ & _ & _ & Hel2).
    exists w2. split; [done|].
    split; [rewrite Htr; by destruct w|].
    split; [rewrite Hreg2; by destruct w|].
    intros el. destruct (Hel2 el) as [-> ->]. by rewrite Hel.
  - unfold run_idle, bind, gets.
    replace (idle_callbacks w1) with (S (idle_callbacks w)) by (by destruct w).
    unfold modify. subst w1. rewrite with_idle_callbacks_twice.
    rewrite with_idle_callbacks_same.
    by rewrite async_updatePosition_absent by (by left).
Qed.

(** ** The registration invariant *)

Lemma same_shape_trans w1 w2 w3 :
  same_shape w1 w2 → same_shape w2 w3 → same_shape w1 w3.
Proof.
  intros (?&?&Hel) (?&?&Hel'). repeat split; try congruence.
  all: destruct (Hel el) as (?&?), (Hel' el) as (?&?); congruence.
Qed.


Lemma time_passed_same_shape w w' : time_passed w w' → same_shape w w'.
Proof.
  intros (Hels & _ & Hreg & Hrefs & _).
  split; [done|]. split; [done|]. intros el. unfold element. by rewrite Hels.
Qed.

Lemma restyled_same_shape w w' :
  restyled w w' → resize_registered w' = resize_registered w → same_shape w w'.
Proof.
  intros (_&_&Hrefs&_&_&_&_&_&Hel) Hreg.
  repeat split; try done; by destruct (Hel el) as (_&?&?).
Qed.





Lemma disconnectedCallback_unregisters w :
  disconnectedCallback w
  = Ok tt (log (RemoveEventListener "resize") (with_resize_registered false w)).
Proof. reflexivity. Qed.



Lemma same_shape_with_now w (T : nat) : same_shape w (with_now T w).
Proof. apply time_passed_same_shape, time_passed_with_now. Qed.



Lemma same_shape_layout w el (r : DOMRect) :
  same_shape w (update_element el (with_rect r) w).
Proof.
  split; [by destruct w|]. split; [by destruct w|].
  intros el'. destruct (decide (el = el')) as [<-|Hne].
  - rewrite element_update_eq. by destruct (element w el).
  - by rewrite element_update_ne.
Qed.




End Properties.

(** * Further properties *)

Section Registration.

Lemma define_component_taken (r : gmap string Constructor) (c : Constructor) :
  r !! "anchored-popover-component" = Some c → define_component r = Registered r.
Proof.
  intros Hc. unfold define_component, customElements_get.
  by rewrite Hc.
Qed.

Lemma define_component_free (r : gmap string Constructor) :
  r !! "anchored-popover-component" = None →
  define_component r
  = if decide (map_Exists (λ _ c', c' = AnchoredPopoverComponent) r)
    then NotSupportedError r
    else Registered (<["anchored-popover-component" := AnchoredPopoverComponent]> r).
Proof.
  intros Hc. unfold define_component, customElements_get, customElements_define.
  rewrite Hc. rewrite bool_decide_eq_false_2 by (by intros [? ?]).
  destruct (decide (is_Some None)) as [[? ?]|]; [done|]. reflexivity.
Qed.

(** X9: the module's last statement registers the class under
    [anchored-popover-component] only when that name is free.  When the name
    is taken, by this class or by any other, nothing is defined and nothing
    is thrown; evaluating the module again after a successful evaluation
    changes nothing.  The guard looks at the name only: with the name free
    but the class already registered under another name, [define] throws. *)
Theorem define_component_guarded (r : gmap string Constructor) :
  (∀ c, r !! "anchored-popover-component" = Some c →
        define_component r = Registered r) ∧
  (r !! "anchored-popover-component" = None →
   (∀ name, r !! name ≠ Some AnchoredPopoverComponent) →
   define_component r
   = Registered (<["anchored-popover-component" := AnchoredPopoverComponent]> r)) ∧
  (∀ r', define_component r = Registered r' →
         r' !! "anchored-popover-component" ≠ None ∧
         (∀ name, name ≠ "anchored-popover-component" → r' !! name = r !! name) ∧
         define_component_again (define_component r) = Registered r') ∧
  (∀ name, r !! "anchored-popover-component" = None →
           r !! name = Some AnchoredPopoverComponent →
           define_component r = NotSupportedError r).
Proof.
  split; [apply define_component_taken|].
  split.
  { intros Hfree Hnew. rewrite define_component_free by done.
    destruct (decide _) as [(name & c & Hname & ->)|]; [|done].
    by destruct (Hnew name). }
  split.
  { intros r' Hdef.
    destruct (r !! "anchored-popover-component") as [c|] eqn:Hc.
    - rewrite (define_component_taken r c Hc) in Hdef. injection Hdef as <-.
      split; [by rewrite Hc|]. split; [done|].
      rewrite (define_component_taken r c Hc). cbn.
      apply (define_component_taken r c Hc).
    - rewrite define_component_free in Hdef by done.
      destruct (decide _); [done|]. injection Hdef as <-.
      split; [by rewrite lookup_insert_eq|].
      split; [intros name Hne; by rewrite lookup_insert_ne|].
      rewrite define_component_free by done.
      destruct (decide _); [done|]. cbn.
      apply (define_component_taken _ AnchoredPopoverComponent).
      apply lookup_insert_eq. }
  intros name Hfree Hname. rewrite define_component_free by done.
  destruct (decide _) as [|Hno]; [done|].
  destruct Hno. by exists name, AnchoredPopoverComponent.
Qed.

End Registration.

Section MoreProperties.
Context `{JSNumber}.
Implicit Types (w : World) (el p t : nat) (e : Element).

(** ** What the recomputation does not touch *)

Lemma element_anchored_other w p el (R : DOMRect) (W Ht : num) :
  el ≠ p → element (anchored p R W Ht w) el = element w el.
Proof.
  intros Hne. unfold anchored. by rewrite !element_set_property_ne.
Qed.

Lemma anchor_style_other (s : gmap string string) (a b c d name : string) :
  name ≠ "--anchor-top" → name ≠ "--anchor-right" →
  name ≠ "--anchor-bottom" → name ≠ "--anchor-left" →
  anchor_style a b c d s !! name = s !! name.
Proof.
  intros. unfold anchor_style. by rewrite !lookup_insert_ne.
Qed.

(** X2: with both references present, the recomputation changes nothing
    but the four anchor declarations of the referenced popover: every other
    element is left as it was (the trigger too), every other declaration of
    the popover keeps its value, the popover keeps its rectangle, its
    visibility and its listeners, and the window, the component's fields,
    the timer, the idle queue and the clock are untouched. *)
Theorem updatePosition_touches_only_anchor w p t :
  refs w !! "popover" = Some p →
  refs w !! "trigger" = Some t →
  ∃ w', updatePosition w = Ok tt w' ∧
    (∀ el, el ≠ p → element w' el = element w el) ∧
    (∀ name, name ≠ "--anchor-top" → name ≠ "--anchor-right" →
             name ≠ "--anchor-bottom" → name ≠ "--anchor-left" →
             style (element w' p) !! name = style (element w p) !! name) ∧
    rect (element w' p) = rect (element w p) ∧
    popover_open (element w' p) = popover_open (element w p) ∧
    beforetoggle_listeners (element w' p) = beforetoggle_listeners (element w p) ∧
    resize_registered w' = resize_registered w ∧
    innerWidth w' = innerWidth w ∧ innerHeight w' = innerHeight w ∧
    refs w' = refs w ∧ dataset w' = dataset w ∧ timeout w' = timeout w ∧
    idle_callbacks w' = idle_callbacks w ∧ now w' = now w.
Proof.
  intros Hp Ht. eexists. split; [by apply updatePosition_present|].
  set (R := rect (element w t)).
  destruct (anchored_frame w p R (innerWidth w) (innerHeight w))
    as (?&?&?&?&?&?&?&?).
  destruct (restyled_anchored w p R (innerWidth w) (innerHeight w))
    as (_&_&_&_&_&_&_&_&Hel).
  destruct (Hel p) as (?&?&?).
  split; [intros el Hne; by apply element_anchored_other|].
  split.
  { intros name ????. rewrite element_anchored, style_with_style.
    by apply anchor_style_other. }
  by repeat split.
Qed.

(** ** The idle recomputation *)

Lemma run_idle_queued w (n : nat) :
  idle_callbacks w = S n →
  run_idle w = async updatePosition (with_idle_callbacks n w).
Proof. intros Hn. unfold run_idle, bind, gets. by rewrite Hn. Qed.

Lemma connectedCallback_present w p :
  refs w !! "popover" = Some p →
  connectedCallback w
  = Ok tt (with_idle_callbacks (S (idle_callbacks w))
             (update_element p
                (λ e, with_beforetoggle_listeners (S (beforetoggle_listeners e)) e)
                w)).
Proof.
  intros Hp.
  unfold connectedCallback, super_connectedCallback, bind, ret, refs_popover, gets.
  rewrite Hp. cbn [add_beforetoggle_listener].
  unfold requestIdleCallback, modify.
  by destruct w.
Qed.

(** What attaching leaves: one more listener on the popover, one more
    queued recomputation. *)
Lemma connectedCallback_attached w p :
  refs w !! "popover" = Some p →
  ∃ w1, connectedCallback w = Ok tt w1 ∧
    beforetoggle_listeners (element w1 p) = S (beforetoggle_listeners (element w p)) ∧
    idle_callbacks w1 = S (idle_callbacks w) ∧
    (∀ el, el ≠ p → element w1 el = element w el) ∧
    style (element w1 p) = style (element w p) ∧
    rect (element w1 p) = rect (element w p) ∧
    popover_open (element w1 p) = popover_open (element w p) ∧
    trace w1 = trace w ∧ refs w1 = refs w ∧ dataset w1 = dataset w ∧
    resize_registered w1 = resize_registered w ∧ timeout w1 = timeout w ∧
    now w1 = now w ∧
    innerWidth w1 = innerWidth w ∧ innerHeight w1 = innerHeight w.
Proof.
  intros Hp. rewrite (connectedCallback_present w p Hp). eexists. split; [done|].
  set (f := λ e : Element,
         with_beforetoggle_listeners (S (beforetoggle_listeners e)) e).
  assert (∀ el, element (with_idle_callbacks (S (idle_callbacks w))
                           (update_element p f w)) el
                = element (update_element p f w) el) as Hidle by (by destruct w).
  rewrite !Hidle, element_update_eq.
  split; [subst f; by destruct (element w p)|].
  split; [by destruct w|].
  split; [intros el Hne; by rewrite Hidle, element_update_ne|].
  split; [subst f; by destruct (element w p)|].
  split; [subst f; by destruct (element w p)|].
  split; [subst f; by destruct (element w p)|].
  by destruct w.
Qed.

(** The recomputation, by what it reads. *)
Lemma updatePosition_by_reads w :
  ∃ w1, updatePosition w = Ok tt w1 ∧
    trace w1 = trace w ++ anchor_writes (refs w) (innerWidth w) (innerHeight w) (elements w) ∧
    elements w1 = anchor_elements (refs w) (innerWidth w) (innerHeight w) (elements w) ∧
    restyled w w1 ∧ resize_registered w1 = resize_registered w.
Proof.
  unfold anchor_writes, anchor_elements.
  destruct (refs w !! "popover") as [p|] eqn:Hp;
    [destruct (refs w !! "trigger") as [t|] eqn:Ht|].
  - eexists. split; [by apply updatePosition_present|].
    split; [apply trace_anchored|].
    split; [by rewrite elements_anchored, element_anchored|].
    split; [apply restyled_anchored|].
    by destruct (anchored_frame w p (rect (element w t)) (innerWidth w)
                   (innerHeight w)) as (_&_&?&_).
  - exists w. split; [apply updatePosition_absent; auto|].
    rewrite app_nil_r. split; [done|]. split; [done|].
    split; [apply restyled_refl|done].
  - exists w. split; [apply updatePosition_absent; auto|].
    rewrite app_nil_r. split; [done|]. split; [done|].
    split; [apply restyled_refl|done].
Qed.

Lemma anchor_elements_rect (rs : gmap string nat) (W Ht : num)
    (els : gmap nat Element) el :
  rect (anchor_elements rs W Ht els !!! el) = rect (els !!! el).
Proof.
  unfold anchor_elements.
  destruct (rs !! "popover") as [p|]; [|done].
  destruct (rs !! "trigger") as [t|]; [|done]. cbv zeta.
  destruct (decide (p = el)) as [->|Hne].
  - by rewrite lookup_total_insert_eq, rect_with_style.
  - by rewrite lookup_total_insert_ne.
Qed.

Lemma anchor_writes_settled (rs : gmap string nat) (W Ht : num)
    (els : gmap nat Element) :
  anchor_writes rs W Ht (anchor_elements rs W Ht els) = anchor_writes rs W Ht els.
Proof.
  unfold anchor_writes.
  destruct (rs !! "popover") as [p|] eqn:Hp; [|done].
  destruct (rs !! "trigger") as [t|] eqn:Ht'; [|done]. cbv zeta.
  by rewrite anchor_elements_rect.
Qed.

Lemma anchor_elements_settled (rs : gmap string nat) (W Ht : num)
    (els : gmap nat Element) :
  anchor_elements rs W Ht (anchor_elements rs W Ht els) = anchor_elements rs W Ht els.
Proof.
  pose proof (anchor_elements_rect rs W Ht els) as Hrect.
  unfold anchor_elements in *.
  destruct (rs !! "popover") as [p|] eqn:Hp; [|done].
  destruct (rs !! "trigger") as [t|] eqn:Ht'; [|done]. cbv zeta in *.
  rewrite Hrect, lookup_total_insert_eq, insert_insert_eq.
  by rewrite with_style_with_style, style_with_style, anchor_style_again.
Qed.

(** ** Listeners added by repeated attachment *)

Lemma beforetoggle_listener_by_reads w (newState : string) :
  ∃ w', beforetoggle_listener newState w = Ok tt w' ∧
    trace w' = trace w
               ++ anchor_writes (refs w) (innerWidth w) (innerHeight w) (elements w)
               ++ [listening_effect newState] ∧
    elements w' = anchor_elements (refs w) (innerWidth w) (innerHeight w) (elements w) ∧
    resize_registered w' = bool_decide (newState = "open") ∧
    restyled w w'.
Proof.
  destruct (updatePosition_by_reads w) as (w1 & Hup & Htr & Hels & Hre & _).
  destruct (beforetoggle_listener_restyled w newState) as (w' & Hl & Hre' & Hreg).
  exists w'. split; [done|]. split; [|split; [|by split]].
  - unfold listening_effect. destruct (decide (newState = "open")) as [->|Hne].
    + rewrite (beforetoggle_listener_open w w1 Hup) in Hl. injection Hl as <-.
      destruct (listening_frame w1 true (AddEventListener "resize")) as (_&->&_).
      by rewrite Htr, <- app_assoc.
    + rewrite (beforetoggle_listener_other w w1 newState Hne Hup) in Hl.
      injection Hl as <-.
      destruct (listening_frame w1 false (RemoveEventListener "resize")) as (_&->&_).
      by rewrite Htr, <- app_assoc.
  - destruct (decide (newState = "open")) as [->|Hne].
    + rewrite (beforetoggle_listener_open w w1 Hup) in Hl. injection Hl as <-.
      by destruct (listening_frame w1 true (AddEventListener "resize")) as (->&_).
    + rewrite (beforetoggle_listener_other w w1 newState Hne Hup) in Hl.
      injection Hl as <-.
      by destruct (listening_frame w1 false (RemoveEventListener "resize")) as (->&_).
Qed.

Lemma each_listener_by_reads (n : nat) w (newState : string) :
  ∃ w', each_listener (S n) (beforetoggle_listener newState) w = Ok tt w' ∧
    trace w' = trace w
               ++ concat (replicate (S n)
                    (anchor_writes (refs w) (innerWidth w) (innerHeight w) (elements w)
                     ++ [listening_effect newState])) ∧
    elements w' = anchor_elements (refs w) (innerWidth w) (innerHeight w) (elements w) ∧
    resize_registered w' = bool_decide (newState = "open") ∧
    restyled w w'.
Proof.
  revert w. induction n as [|n IH]; intros w.
  - destruct (beforetoggle_listener_by_reads w newState)
      as (w1 & Hl & Htr & Hels & Hreg & Hre).
    exists w1. split.
    { cbn [each_listener]. unfold bind. by rewrite Hl. }
    split; [|by split]. cbn [replicate concat]. by rewrite app_nil_r.
  - destruct (beforetoggle_listener_by_reads w newState)
      as (w1 & Hl & Htr & Hels & Hreg & Hre).
    destruct (IH w1) as (w' & Hrun & Htr' & Hels' & Hreg' & Hre').
    pose proof (restyled_trans _ _ _ Hre Hre') as Hre''.
    destruct Hre as (HW & HH & Hrefs & _).
    exists w'. split.
    { change (each_listener (S (S n)) (beforetoggle_listener newState) w)
        with (bind (beforetoggle_listener newState)
                (λ _, each_listener (S n) (beforetoggle_listener newState)) w).
      unfold bind at 1. by rewrite Hl. }
    rewrite Htr', Hels', Hrefs, HW, HH, Hels, Htr.
    rewrite anchor_writes_settled, anchor_elements_settled.
    split; [|by split].
    rewrite (replicate_S (S n)). cbn [concat]. by rewrite <- !app_assoc.
Qed.

(** X7: when the component was attached more than once, its popover carries
    several copies of the listener and each transition runs them all: the
    recomputation and the registration call are repeated once per copy, with
    the same writes every time, and the elements and the registration end as
    a single copy would have left them. *)
Theorem each_listener_repeats (n : nat) w (newState : string) :
  let writes := anchor_writes (refs w) (innerWidth w) (innerHeight w) (elements w) in
  ∃ w', each_listener (S n) (beforetoggle_listener newState) w = Ok tt w' ∧
    trace w' = trace w
               ++ concat (replicate (S n) (writes ++ [listening_effect newState])) ∧
    (∃ w1, beforetoggle_listener newState w = Ok tt w1 ∧
           elements w' = elements w1 ∧
           resize_registered w' = resize_registered w1).
Proof.
  intros writes.
  destruct (each_listener_by_reads n w newState) as (w' & Hrun & Htr & Hels & Hreg & _).
  destruct (beforetoggle_listener_by_reads w newState)
    as (w1 & Hl & _ & Hels1 & Hreg1 & _).
  exists w'. split; [done|]. split; [done|].
  exists w1. split; [done|]. by rewrite Hels, Hels1, Hreg, Hreg1.
Qed.

Lemma disconnectedCallback_detached w :
  ∃ w1, disconnectedCallback w = Ok tt w1 ∧
    elements w1 = elements w ∧
    trace w1 = trace w ++ [RemoveEventListener "resize"] ∧
    resize_registered w1 = false ∧ refs w1 = refs w ∧ dataset w1 = dataset w ∧
    timeout w1 = timeout w ∧ idle_callbacks w1 = idle_callbacks w ∧
    now w1 = now w ∧ innerWidth w1 = innerWidth w ∧ innerHeight w1 = innerHeight w.
Proof.
  rewrite disconnectedCallback_unregisters. eexists. split; [done|].
  apply listening_frame.
Qed.

Lemma run_cons w w1 (ev : Event) (evs : list Event) :
  handle ev w = Ok tt w1 → run (ev :: evs) w = run evs w1.
Proof. intros Hstep. cbn [run]. unfold bind. by rewrite Hstep. Qed.

Lemma hide_popover_silently_hidden w el :
  ∃ w1, handle (HideSilently el) w = Ok tt w1 ∧
    popover_open (element w1 el) = false ∧
    beforetoggle_listeners (element w1 el) = beforetoggle_listeners (element w el) ∧
    style (element w1 el) = style (element w el) ∧
    refs w1 = refs w ∧ resize_registered w1 = resize_registered w ∧
    timeout w1 = timeout w ∧ idle_callbacks w1 = idle_callbacks w.
Proof.
  eexists. split; [reflexivity|]. rewrite element_update_eq.
  split; [by destruct (element w el)|]. split; [by destruct (element w el)|].
  split; [by destruct (element w el)|]. by destruct w.
Qed.

(** X6: detaching removes the resize listener only.  Every attachment adds
    one more [beforetoggle] listener to the popover and queues one more idle
    recomputation, and no detachment takes them back: after [k] rounds of
    attaching the component and removing it from the document (which hides
    its popover and runs [disconnectedCallback]) the popover carries [k]
    more listeners and the queue [k] more callbacks; the popover's
    declarations and the timer are as they were, and after at least one
    round the popover is closed and the resize listener is not registered. *)
Theorem reattached_accumulates (k : nat) w p :
  refs w !! "popover" = Some p →
  ∃ w', run (reattached p k) w = Ok tt w' ∧
    beforetoggle_listeners (element w' p) = beforetoggle_listeners (element w p) + k ∧
    idle_callbacks w' = idle_callbacks w + k ∧
    (0 < k → resize_registered w' = false ∧ popover_open (element w' p) = false) ∧
    style (element w' p) = style (element w p) ∧
    timeout w' = timeout w.
Proof.
  revert w. induction k as [|k IH]; intros w Hp.
  - exists w. split; [done|]. rewrite !Nat.add_0_r.
    repeat split; try done; lia.
  - destruct (connectedCallback_attached w p Hp)
      as (w1 & Hc & Hn1 & Hi1 & _ & Hst1 & _ & _ & _ & Hrefs1 & _ & _ & Htm1 & _).
    destruct (hide_popover_silently_hidden w1 p)
      as (wh & Hh & Hoph & Hnh & Hsth & Hrefsh & _ & Htmh & Hih).
    destruct (disconnectedCallback_detached wh)
      as (w2 & Hd & Hels2 & _ & Hreg2 & Hrefs2 & _ & Htm2 & Hi2 & _).
    destruct (IH w2) as (w' & Hrun & Hn & Hi & Hreg & Hst & Htm).
    { by rewrite Hrefs2, Hrefsh, Hrefs1. }
    assert (∀ el, element w2 el = element wh el) as Hsame.
    { intros el. unfold element. by rewrite Hels2. }
    exists w'. split.
    { cbn [reattached].
      rewrite (run_cons w w1 Connect) by exact Hc.
      rewrite (run_cons w1 wh (HideSilently p)) by exact Hh.
      by rewrite (run_cons wh w2 Disconnect) by exact Hd. }
    rewrite Hn, Hi, Hst, Htm, !Hsame, Hnh, Hn1, Hi2, Hih, Hi1, Hsth, Hst1,
      Htm2, Htmh, Htm1.
    split; [lia|]. split; [lia|].
    split; [|done].
    intros _. destruct k; [|apply Hreg; lia].
    cbn [reattached run] in Hrun. injection Hrun as <-.
    split; [exact Hreg2|]. by rewrite Hsame.
Qed.

(** ** The queued recomputation *)

(** The four values on the popover [p] of [w'], computed from the rectangle
    [R] and the viewport of [w]. *)
Lemma updatePosition_written w p t :
  refs w !! "popover" = Some p →
  refs w !! "trigger" = Some t →
  let R := rect (element w t) in
  ∃ w', updatePosition w = Ok tt w' ∧
    trace w' = trace w ++
      [SetProperty p "--anchor-top" (to_string (rect_top R));
       SetProperty p "--anchor-right" (to_string (minus (innerWidth w) (rect_right R)));
       SetProperty p "--anchor-bottom" (to_string (minus (innerHeight w) (rect_bottom R)));
       SetProperty p "--anchor-left" (to_string (rect_left R))] ∧
    style (element w' p)
    = anchor_style (to_string (rect_top R))
        (to_string (minus (innerWidth w) (rect_right R)))
        (to_string (minus (innerHeight w) (rect_bottom R)))
        (to_string (rect_left R)) (style (element w p)) ∧
    restyled w w' ∧ resize_registered w' = resize_registered w.
Proof.
  intros Hp Ht R. eexists. split; [by apply updatePosition_present|].
  split; [apply trace_anchored|].
  split; [by rewrite element_anchored, style_with_style|].
  split; [apply restyled_anchored|].
  by destruct (anchored_frame w p R (innerWidth w) (innerHeight w)) as (_&_&?&_).
Qed.

Lemma run_idle_recomputes w p t (n : nat) :
  idle_callbacks w = S n →
  refs w !! "popover" = Some p →
  refs w !! "trigger" = Some t →
  let R := rect (element w t) in
  ∃ w', run_idle w = Ok tt w' ∧
    trace w' = trace w ++
      [SetProperty p "--anchor-top" (to_string (rect_top R));
       SetProperty p "--anchor-right" (to_string (minus (innerWidth w) (rect_right R)));
       SetProperty p "--anchor-bottom" (to_string (minus (innerHeight w) (rect_bottom R)));
       SetProperty p "--anchor-left" (to_string (rect_left R))] ∧
    style (element w' p)
    = anchor_style (to_string (rect_top R))
        (to_string (minus (innerWidth w) (rect_right R)))
        (to_string (minus (innerHeight w) (rect_bottom R)))
        (to_string (rect_left R)) (style (element w p)) ∧
    idle_callbacks w' = n ∧
    resize_registered w' = resize_registered w ∧
    popover_open (element w' p) = popover_open (element w p).
Proof.
  intros Hn Hp Ht R. rewrite (run_idle_queued w n Hn).
  assert (refs (with_idle_callbacks n w) = refs w ∧
          trace (with_idle_callbacks n w) = trace w ∧
          innerWidth (with_idle_callbacks n w) = innerWidth w ∧
          innerHeight (with_idle_callbacks n w) = innerHeight w ∧
          resize_registered (with_idle_callbacks n w) = resize_registered w ∧
          idle_callbacks (with_idle_callbacks n w) = n ∧
          ∀ el, element (with_idle_callbacks n w) el = element w el)
    as (Hrefs & Htr & HW & HH & Hreg & Hidle & Hel) by (by destruct w).
  destruct (updatePosition_written (with_idle_callbacks n w) p t)
    as (w' & Hup & Htr' & Hst & Hre & Hreg'); [by rewrite Hrefs..|].
  rewrite (async_updatePosition _ _ Hup). exists w'. split; [done|].
  rewrite Htr', Hst, Hreg', Htr, HW, HH, Hreg, !Hel.
  destruct Hre as (_&_&_&_&_&->&_&_&Hel').
  destruct (Hel' p) as (_&->&_). by rewrite Hel.
Qed.

(** X8: the first position is computed when the host becomes idle after
    the component is attached, without any open transition: attaching and
    then running the queued callback writes the four anchor declarations on
    the popover, from the trigger's rectangle and the viewport at that time,
    and leaves the registration and the popover's visibility alone.  Detaching
    in between does not cancel the queued callback: it still writes the four
    declarations, after the resize listener was removed. *)
Theorem idle_recompute_after_attach w p t :
  refs w !! "popover" = Some p →
  refs w !! "trigger" = Some t →
  let R := rect (element w t) in
  let writes :=
    [SetProperty p "--anchor-top" (to_string (rect_top R));
     SetProperty p "--anchor-right" (to_string (minus (innerWidth w) (rect_right R)));
     SetProperty p "--anchor-bottom" (to_string (minus (innerHeight w) (rect_bottom R)));
     SetProperty p "--anchor-left" (to_string (rect_left R))] in
  let anchors :=
    anchor_style (to_string (rect_top R))
      (to_string (minus (innerWidth w) (rect_right R)))
      (to_string (minus (innerHeight w) (rect_bottom R)))
      (to_string (rect_left R)) (style (element w p)) in
  (∃ w', run [Connect; Idle] w = Ok tt w' ∧
     trace w' = trace w ++ writes ∧
     style (element w' p) = anchors ∧
     idle_callbacks w' = idle_callbacks w ∧
     resize_registered w' = resize_registered w ∧
     popover_open (element w' p) = popover_open (element w p)) ∧
  (∃ w', run [Connect; Disconnect; Idle] w = Ok tt w' ∧
     trace w' = trace w ++ [RemoveEventListener "resize"] ++ writes ∧
     style (element w' p) = anchors ∧
     resize_registered w' = false).
Proof.
  intros Hp Ht R writes anchors.
  destruct (connectedCallback_attached w p Hp)
    as (w1 & Hc & _ & Hi1 & Hel1 & Hst1 & Hrect1 & Hop1 & Htr1 & Hrefs1 & _ & Hreg1
        & _ & _ & HW1 & HH1).
  assert (rect (element w1 t) = R) as HR1.
  { subst R. destruct (decide (t = p)) as [->|Hne]; [done|]. by rewrite Hel1. }
  split.
  - destruct (run_idle_recomputes w1 p t (idle_callbacks w))
      as (w' & Hidle & Htr & Hst & Hi & Hreg & Hop); [by rewrite ?Hrefs1..|].
    exists w'. split.
    { rewrite (run_cons w w1 Connect) by exact Hc.
      rewrite (run_cons w1 w' Idle) by exact Hidle. done. }
    rewrite Htr, Hst, Hi, Hreg, Hop, HR1, HW1, HH1, Htr1, Hst1, Hreg1, Hop1.
    done.
  - destruct (disconnectedCallback_detached w1)
      as (w2 & Hd & Hels2 & Htr2 & Hreg2 & Hrefs2 & _ & _ & Hi2 & _ & HW2 & HH2).
    assert (∀ el, element w2 el = element w1 el) as Hsame.
    { intros el. unfold element. by rewrite Hels2. }
    destruct (run_idle_recomputes w2 p t (idle_callbacks w))
      as (w' & Hidle & Htr & Hst & _ & Hreg & _);
      [by rewrite ?Hi2, ?Hrefs2, ?Hrefs1..|].
    exists w'. split.
    { rewrite (run_cons w w1 Connect) by exact Hc.
      rewrite (run_cons w1 w2 Disconnect) by exact Hd.
      rewrite (run_cons w2 w' Idle) by exact Hidle. done. }
    rewrite Htr, Hst, Hreg, !Hsame, HR1, HW2, HH2, HW1, HH1, Htr2, Htr1, Hst1, Hreg2.
    by rewrite <- app_assoc.
Qed.

(** ** Closing on resize *)

Lemma hide_popover_open w el :
  popover_open (element w el) = true →
  hide_popover el w
  = match each_listener (beforetoggle_listeners (element w el))
            (beforetoggle_listener "closed") w with
    | Ok _ w1 => Ok tt (update_element el (with_popover_open false) w1)
    | Throw ex w1 => Throw ex w1
    end.
Proof.
  intros Hopen. unfold hide_popover, bind, gets. rewrite Hopen.
  unfold dispatch_beforetoggle, bind, gets, modify.
  by destruct (each_listener _ _ w).
Qed.

Lemma anchor_writes_present (rs : gmap string nat) (W Ht : num)
    (els : gmap nat Element) p t :
  rs !! "popover" = Some p → rs !! "trigger" = Some t →
  let R := rect (els !!! t) in
  anchor_writes rs W Ht els
  = [SetProperty p "--anchor-top" (to_string (rect_top R));
     SetProperty p "--anchor-right" (to_string (minus W (rect_right R)));
     SetProperty p "--anchor-bottom" (to_string (minus Ht (rect_bottom R)));
     SetProperty p "--anchor-left" (to_string (rect_left R))].
Proof. intros Hp Ht' R. unfold anchor_writes. by rewrite Hp, Ht'. Qed.

Lemma anchor_elements_present (rs : gmap string nat) (W Ht : num)
    (els : gmap nat Element) p t :
  rs !! "popover" = Some p → rs !! "trigger" = Some t →
  let R := rect (els !!! t) in
  style (anchor_elements rs W Ht els !!! p)
  = anchor_style (to_string (rect_top R)) (to_string (minus W (rect_right R)))
      (to_string (minus Ht (rect_bottom R))) (to_string (rect_left R))
      (style (els !!! p)).
Proof.
  intros Hp Ht' R. unfold anchor_elements. rewrite Hp, Ht'. cbv zeta.
  by rewrite lookup_total_insert_eq, style_with_style.
Qed.

(** X4: closing on resize goes through the [beforetoggle] listener.  With a
    truthy flag, both references present, the popover open and carrying
    [S n] copies of the listener, the debounced callback calls [hidePopover]
    once; before the popover closes, every copy recomputes the position and
    removes the resize listener.  Afterwards the popover is closed, carries
    the four anchor values of the current geometry, and the resize listener
    is no longer registered. *)
Theorem resize_close_recomputes_and_unregisters w p t (n : nat) :
  truthy_string (dataset w !! "closeOnResize") = true →
  refs w !! "popover" = Some p →
  refs w !! "trigger" = Some t →
  popover_open (element w p) = true →
  beforetoggle_listeners (element w p) = S n →
  let R := rect (element w t) in
  let writes :=
    [SetProperty p "--anchor-top" (to_string (rect_top R));
     SetProperty p "--anchor-right" (to_string (minus (innerWidth w) (rect_right R)));
     SetProperty p "--anchor-bottom" (to_string (minus (innerHeight w) (rect_bottom R)));
     SetProperty p "--anchor-left" (to_string (rect_left R))] in
  ∃ w', resize_callback w = Ok tt w' ∧
    trace w' = trace w ++ [HidePopover p]
               ++ concat (replicate (S n) (writes ++ [RemoveEventListener "resize"])) ∧
    style (element w' p)
    = anchor_style (to_string (rect_top R))
        (to_string (minus (innerWidth w) (rect_right R)))
        (to_string (minus (innerHeight w) (rect_bottom R)))
        (to_string (rect_left R)) (style (element w p)) ∧
    popover_open (element w' p) = false ∧
    resize_registered w' = false.
Proof.
  intros Hflag Hp Ht Hopen Hn R writes.
  rewrite (resize_callback_open w p Hflag Hp Hopen).
  assert (refs (log (HidePopover p) w) = refs w ∧
          innerWidth (log (HidePopover p) w) = innerWidth w ∧
          innerHeight (log (HidePopover p) w) = innerHeight w ∧
          elements (log (HidePopover p) w) = elements w ∧
          trace (log (HidePopover p) w) = trace w ++ [HidePopover p])
    as (Hrefs & HW & HH & Hels & Htr) by (by destruct w).
  revert Hrefs HW HH Hels Htr. generalize (log (HidePopover p) w).
  intros w0 Hrefs HW HH Hels Htr.
  assert (∀ el, element w0 el = element w el) as Hsame.
  { intros el. unfold element. by rewrite Hels. }
  rewrite hide_popover_open by (by rewrite Hsame).
  rewrite Hsame, Hn.
  destruct (each_listener_by_reads n w0 "closed")
    as (w1 & -> & Htr1 & Hels1 & Hreg1 & _).
  rewrite Hrefs, HW, HH, Hels in Htr1, Hels1.
  rewrite (anchor_writes_present (refs w) _ _ _ p t Hp Ht) in Htr1.
  eexists. split; [reflexivity|].
  rewrite element_update_eq.
  assert (trace (update_element p (with_popover_open false) w1) = trace w1 ∧
          resize_registered (update_element p (with_popover_open false) w1)
          = resize_registered w1) as [-> ->] by (by destruct w1).
  split.
  { rewrite Htr1, Htr, <- app_assoc. reflexivity. }
  split.
  { transitivity (style (element w1 p)); [by destruct (element w1 p)|].
    unfold element. rewrite Hels1.
    apply (anchor_elements_present (refs w) _ _ _ p t Hp Ht). }
  split; [by destruct (element w1 p)|].
  by rewrite Hreg1.
Qed.

(** ** Registered exactly while open *)

Lemma same_shape_tracking w w' p :
  same_shape w w' → tracking p w → tracking p w'.
Proof.
  intros (Hrefs & Hreg & Hel) (Hp & Hn & HJ & Htrack).
  destruct (Hel p) as [Hop Hnp].
  split; [by rewrite Hrefs|]. split; [by rewrite Hnp|].
  split; [|by rewrite Hreg, Hop].
  intros el. destruct (Hel el) as [_ ->]. apply HJ.
Qed.

Lemma toggled_show_tracking w w' p el :
  tracking p w →
  toggled el true w w' →
  resize_registered w'
  = (if popover_open (element w el) then resize_registered w
     else registered_after (beforetoggle_listeners (element w el)) true
            (resize_registered w)) →
  tracking p w'.
Proof.
  intros (Hp & Hn & HJ & Htrack) (_&_&Hrefs&_&_&_&_&_&Hel) Hreg.
  destruct (Hel p) as (_ & Hop & Hnp).
  split; [by rewrite Hrefs|]. split; [by rewrite Hnp|].
  split; [intros el'; destruct (Hel el') as (_&_&->); apply HJ|].
  rewrite Hreg, Hop. destruct (decide (p = el)) as [<-|Hne].
  - destruct (popover_open (element w p)); [done|].
    by destruct (beforetoggle_listeners (element w p)); [lia|].
  - assert (beforetoggle_listeners (element w el) = 0) as ->.
    { destruct (beforetoggle_listeners (element w el)) eqn:Hz; [done|].
      destruct Hne. symmetry. apply HJ. lia. }
    by destruct (popover_open (element w el)).
Qed.

Lemma toggled_hide_tracking w w' p el :
  tracking p w →
  toggled el false w w' →
  resize_registered w'
  = (if popover_open (element w el)
     then registered_after (beforetoggle_listeners (element w el)) false
            (resize_registered w)
     else resize_registered w) →
  tracking p w'.
Proof.
  intros (Hp & Hn & HJ & Htrack) (_&_&Hrefs&_&_&_&_&_&Hel) Hreg.
  destruct (Hel p) as (_ & Hop & Hnp).
  split; [by rewrite Hrefs|]. split; [by rewrite Hnp|].
  split; [intros el'; destruct (Hel el') as (_&_&->); apply HJ|].
  rewrite Hreg, Hop. destruct (decide (p = el)) as [<-|Hne].
  - destruct (popover_open (element w p)); [|done].
    by destruct (beforetoggle_listeners (element w p)); [lia|].
  - assert (beforetoggle_listeners (element w el) = 0) as ->.
    { destruct (beforetoggle_listeners (element w el)) eqn:Hz; [done|].
      destruct Hne. symmetry. apply HJ. lia. }
    by destruct (popover_open (element w el)).
Qed.

Lemma resize_callback_tracking w p :
  tracking p w → ∃ w', resize_callback w = Ok tt w' ∧ tracking p w'.
Proof.
  intros Htrack.
  destruct (resize_callback_cases w)
    as (w1 & Hcb & [->|(p' & _ & Hp' & Hop & Htog & Hreg)]).
  - by exists w.
  - exists w1. split; [done|].
    apply (toggled_hide_tracking (log (HidePopover p') w) w1 p p').
    + apply (same_shape_tracking w); [|done].
      split; [by destruct w|]. split; [by destruct w|].
      intros el. by rewrite element_log.
    + done.
    + rewrite Hreg, element_log, Hop. by destruct w.
Qed.

Lemma elapse_tracking w p (d : nat) :
  tracking p w → ∃ w', elapse d w = Ok tt w' ∧ tracking p w'.
Proof.
  intros Htrack. destruct (timeout w) as [t|] eqn:Ht.
  - destruct (decide (t ≤ now w + d)) as [Hle|Hgt].
    + rewrite (elapse_due w d t Ht Hle).
      destruct (resize_callback_tracking (at_deadline t w) p) as (w1 & -> & Htrack1).
      { eapply same_shape_tracking; [|exact Htrack].
        apply time_passed_same_shape, time_passed_at_deadline. }
      eexists. split; [done|].
      eapply same_shape_tracking; [apply same_shape_with_now|done].
    + rewrite (elapse_early w d t Ht) by lia. eexists. split; [done|].
      eapply same_shape_tracking; [apply same_shape_with_now|done].
  - rewrite elapse_no_timer by done. eexists. split; [done|].
    eapply same_shape_tracking; [apply same_shape_with_now|done].
Qed.

Lemma run_idle_tracking w p :
  tracking p w → ∃ w', run_idle w = Ok tt w' ∧ tracking p w'.
Proof.
  intros Htrack. unfold run_idle, bind, gets.
  destruct (idle_callbacks w) as [|n]; [by exists w|].
  unfold modify.
  destruct (updatePosition_returns (with_idle_callbacks n w)) as (w1 & Hup).
  rewrite (async_updatePosition _ _ Hup). exists w1. split; [done|].
  destruct (updatePosition_restyled _ _ Hup) as [Hre Hreg].
  eapply same_shape_tracking; [|exact Htrack].
  eapply same_shape_trans; [|by apply restyled_same_shape].
  by destruct w.
Qed.

Lemma connectedCallback_tracking w p :
  tracking p w → ∃ w', connectedCallback w = Ok tt w' ∧ tracking p w'.
Proof.
  intros (Hp & Hn & HJ & Htrack).
  destruct (connectedCallback_attached w p Hp)
    as (w1 & Hc & Hn1 & _ & Hel1 & _ & _ & Hop1 & _ & Hrefs1 & _ & Hreg1 & _).
  exists w1. split; [done|].
  split; [by rewrite Hrefs1|]. split; [lia|].
  split; [|by rewrite Hreg1, Hop1].
  intros el Hpos. destruct (decide (el = p)) as [|Hne]; [done|].
  rewrite Hel1 in Hpos by done. by apply HJ.
Qed.

Lemma handle_tracking (ev : Event) w p :
  stays_attached ev = true →
  announced ev = true →
  tracking p w →
  ∃ w', handle ev w = Ok tt w' ∧ tracking p w'.
Proof.
  intros Hev Hann Htrack.
  destruct ev as [| |el|el| |d| |name value|name|el r|W Ht|el|el];
    try discriminate; cbn [handle].
  - by apply connectedCallback_tracking.
  - destruct (show_popover_spec w el) as (w' & Hshow & Htog & Hreg).
    exists w'. split; [done|]. by apply (toggled_show_tracking w w' p el).
  - destruct (hide_popover_spec w el) as (w' & Hhide & Htog & Hreg).
    exists w'. split; [done|]. by apply (toggled_hide_tracking w w' p el).
  - destruct (dispatch_resize_time_passed w) as (w' & Hres & Hpass).
    exists w'. split; [done|].
    eapply same_shape_tracking; [by apply time_passed_same_shape|done].
  - by apply elapse_tracking.
  - by apply run_idle_tracking.
  - eexists. split; [reflexivity|].
    eapply same_shape_tracking; [|exact Htrack]. by destruct w.
  - eexists. split; [reflexivity|].
    eapply same_shape_tracking; [|exact Htrack]. by destruct w.
  - eexists. split; [reflexivity|].
    eapply same_shape_tracking; [apply same_shape_layout|done].
  - eexists. split; [reflexivity|].
    eapply same_shape_tracking; [|exact Htrack]. by destruct w.
Qed.

Lemma run_tracking (evs : list Event) w p :
  forallb stays_attached evs = true →
  forallb announced evs = true →
  tracking p w →
  ∃ w', run evs w = Ok tt w' ∧ tracking p w'.
Proof.
  revert w. induction evs as [|ev evs IH]; intros w Hall Hann Htrack.
  - by exists w.
  - cbn [forallb] in Hall, Hann.
    apply andb_prop in Hall as [Hev Hall]. apply andb_prop in Hann as [Hev' Hann].
    destruct (handle_tracking ev w p Hev Hev' Htrack) as (w1 & Hstep & Htrack1).
    destruct (IH w1 Hall Hann Htrack1) as (w' & Hrun & Htrack').
    exists w'. split; [|done]. by rewrite (run_cons w w1 ev).
Qed.

(** X3: a fresh instance attached while its popover is closed keeps the
    resize listener registered exactly when the popover is open, as long as
    it is not detached, every closing is announced by [beforetoggle] and
    every announced opening is carried out: after attaching and any sequence
    of such events (announced opening and closing of any element, resize
    events, waits with the timer firing, idle callbacks, attaching again,
    attribute, layout and viewport changes) the registration equals the
    popover's visibility.  A popover hidden without [beforetoggle] or an
    opening that is cancelled breaks the equality. *)
Theorem registered_exactly_while_open w0 p (evs : list Event) :
  fresh_instance w0 →
  refs w0 !! "popover" = Some p →
  popover_open (element w0 p) = false →
  forallb stays_attached evs = true →
  forallb announced evs = true →
  ∃ w, run (Connect :: evs) w0 = Ok tt w ∧
    resize_registered w = popover_open (element w p).
Proof.
  intros Hfresh Hp Hclosed Hall Hann.
  destruct (connectedCallback_attached w0 p Hp)
    as (w1 & Hc & Hn1 & _ & Hel1 & _ & _ & Hop1 & _ & Hrefs1 & _ & Hreg1 & _).
  assert (tracking p w1) as Htrack.
  { split; [by rewrite Hrefs1|]. split; [lia|].
    split.
    - intros el Hpos. destruct (decide (el = p)) as [|Hne]; [done|].
      rewrite Hel1, (fresh_instance_listeners w0 el Hfresh) in Hpos by done. lia.
    - rewrite Hreg1, Hop1, Hclosed. by destruct Hfresh. }
  destruct (run_tracking evs w1 p Hall Hann Htrack) as (w & Hrun & _ & _ & _ & Heq).
  exists w. split; [|done]. by rewrite (run_cons w0 w1 Connect).
Qed.

(** ** Guards *)

(** X10: the debounced callback calls no method on a missing reference.
    With the popover reference absent, or with the referenced popover not
    open, it returns normally and changes nothing, whatever the flag. *)
Theorem resize_callback_guarded w :
  refs w !! "popover" = None ∨
  (∃ p, refs w !! "popover" = Some p ∧ popover_open (element w p) = false) →
  resize_callback w = Ok tt w.
Proof.
  intros [Hno|(p & Hp & Hclosed)].
  - by apply resize_callback_no_popover.
  - by apply (resize_callback_not_open w p).
Qed.

Lemma connectedCallback_returns w : ∃ w', connectedCallback w = Ok tt w'.
Proof.
  destruct (refs w !! "popover") as [p|] eqn:Hp.
  - destruct (connectedCallback_attached w p Hp) as (w' & Hc & _). by exists w'.
  - unfold connectedCallback, super_connectedCallback, bind, ret, refs_popover, gets.
    rewrite Hp. by eexists.
Qed.

Lemma elapse_returns w (d : nat) : ∃ w', elapse d w = Ok tt w'.
Proof.
  destruct (timeout w) as [t|] eqn:Ht.
  - destruct (decide (t ≤ now w + d)) as [Hle|Hgt].
    + rewrite (elapse_due w d t Ht Hle).
      destruct (resize_callback_cases (at_deadline t w)) as (w1 & -> & _).
      by eexists.
    + rewrite (elapse_early w d t Ht) by lia. by eexists.
  - rewrite elapse_no_timer by done. by eexists.
Qed.

Lemma run_idle_returns w : ∃ w', run_idle w = Ok tt w'.
Proof.
  unfold run_idle, bind, gets.
  destruct (idle_callbacks w) as [|n]; [by exists w|].
  unfold modify.
  destruct (updatePosition_returns (with_idle_callbacks n w)) as (w1 & Hup).
  rewrite (async_updatePosition _ _ Hup). by exists w1.
Qed.

Lemma show_popover_cancelled_returns w el :
  ∃ w', show_popover_cancelled el w = Ok tt w'.
Proof.
  unfold show_popover_cancelled, bind, gets.
  destruct (popover_open (element w el)); [by exists w|].
  unfold dispatch_beforetoggle, bind, gets.
  destruct (beforetoggle_listeners (element w el)) as [|n]; [by exists w|].
  destruct (each_listener_by_reads n w "open") as (w' & Hrun & _). by exists w'.
Qed.

Lemma handle_returns (ev : Event) w : ∃ w', handle ev w = Ok tt w'.
Proof.
  destruct ev as [| |el|el| |d| |name value|name|el r|W Ht|el|el]; cbn [handle].
  - apply connectedCallback_returns.
  - destruct (disconnectedCallback_detached w) as (w' & Hd & _). by exists w'.
  - destruct (show_popover_spec w el) as (w' & Hshow & _). by exists w'.
  - destruct (hide_popover_spec w el) as (w' & Hhide & _). by exists w'.
  - destruct (dispatch_resize_time_passed w) as (w' & Hres & _). by exists w'.
  - apply elapse_returns.
  - apply run_idle_returns.
  - by eexists.
  - by eexists.
  - by eexists.
  - by eexists.
  - apply show_popover_cancelled_returns.
  - by eexists.
Qed.

Lemma run_returns (evs : list Event) w : ∃ w', run evs w = Ok tt w'.
Proof.
  revert w. induction evs as [|ev evs IH]; intros w.
  - by exists w.
  - destruct (handle_returns ev w) as (w1 & Hstep).
    destruct (IH w1) as (w' & Hrun).
    exists w'. by rewrite (run_cons w w1 ev).
Qed.

(** ** Resize events at any spacing *)

Lemma elapse_guarded w (d : nat) :
  refs w !! "popover" = None ∨
  (∃ p, refs w !! "popover" = Some p ∧ popover_open (element w p) = false) →
  ∃ w', elapse d w = Ok tt w' ∧ time_passed w w'.
Proof.
  intros Hguard. destruct (timeout w) as [t|] eqn:Ht.
  - destruct (decide (t ≤ now w + d)) as [Hle|Hgt].
    + rewrite (elapse_due w d t Ht Hle).
      pose proof (time_passed_at_deadline w t) as Hpass.
      assert (resize_callback (at_deadline t w) = Ok tt (at_deadline t w)) as ->.
      { destruct Hpass as (Hels & _ & _ & Hrefs & _).
        destruct Hguard as [Hno|(p & Hp & Hclosed)].
        - apply resize_callback_no_popover. by rewrite Hrefs.
        - apply (resize_callback_not_open _ p); [by rewrite Hrefs|].
          unfold element. by rewrite Hels. }
      eexists. split; [done|].
      eapply time_passed_trans; [exact Hpass|]. apply time_passed_with_now.
    + rewrite (elapse_early w d t Ht) by lia.
      eexists. split; [done|]. apply time_passed_with_now.
  - rewrite elapse_no_timer by done.
    eexists. split; [done|]. apply time_passed_with_now.
Qed.

(** While the referenced popover is closed, or the reference is missing,
    resize events and waits only move the clock and the timer. *)
Lemma resizes_popover_closed w (gaps : list nat) :
  refs w !! "popover" = None ∨
  (∃ p, refs w !! "popover" = Some p ∧ popover_open (element w p) = false) →
  ∃ w', resizes gaps w = Ok tt w' ∧ time_passed w w'.
Proof.
  revert w. induction gaps as [|d gaps IH]; intros w Hguard.
  - exists w. split; [done|apply time_passed_refl].
  - destruct (dispatch_resize_time_passed w) as (wa & Hres & Ha).
    assert (∀ w1 w2, time_passed w1 w2 →
              (refs w1 !! "popover" = None ∨
               (∃ p, refs w1 !! "popover" = Some p ∧
                     popover_open (element w1 p) = false)) →
              refs w2 !! "popover" = None ∨
              (∃ p, refs w2 !! "popover" = Some p ∧
                    popover_open (element w2 p) = false)) as Hkeep.
    { intros w1 w2 (Hels & _ & _ & Hrefs & _) [Hno|(p & Hp & Hclosed)].
      - left. by rewrite Hrefs.
      - right. exists p. split; [by rewrite Hrefs|]. unfold element. by rewrite Hels. }
    destruct (elapse_guarded wa d (Hkeep _ _ Ha Hguard)) as (wb & Hel & Hb).
    pose proof (time_passed_trans _ _ _ Ha Hb) as Hab.
    destruct (IH wb (Hkeep _ _ Hab Hguard)) as (w' & Hrun & Hc).
    exists w'. split.
    + cbn [resizes]. unfold bind. by rewrite Hres, Hel.
    + by eapply time_passed_trans.
Qed.

(** In any world the callback closes at most once over a sequence of resize
    events: after the close the popover is closed, and nothing in the
    sequence opens it again. *)
Lemma resizes_close_once w (gaps : list nat) :
  ∃ w', resizes gaps w = Ok tt w' ∧
    count_closes (trace w') ≤ S (count_closes (trace w)).
Proof.
  revert w. induction gaps as [|d gaps IH]; intros w.
  - exists w. split; [done|lia].
  - destruct (dispatch_resize_time_passed w) as (wa & Hres & Ha).
    assert (trace wa = trace w) as Htra by (by destruct Ha as (_&?&_)).
    assert (∃ wb w', elapse d wa = Ok tt wb ∧ resizes gaps wb = Ok tt w' ∧
              count_closes (trace w') ≤ S (count_closes (trace w)))
      as (wb & w' & Hel & Hrun & Hle).
    { assert (∀ w0, time_passed wa w0 →
                ∃ w', resizes gaps (with_now (now wa + d) w0) = Ok tt w' ∧
                      count_closes (trace w') ≤ S (count_closes (trace w)))
        as Hsame.
      { intros w0 H0.
        pose proof (time_passed_trans _ _ _ H0 (time_passed_with_now w0 (now wa + d)))
          as (_&Htrb&_).
        destruct (IH (with_now (now wa + d) w0)) as (w' & Hrun & Hle).
        exists w'. split; [done|]. by rewrite Htrb, Htra in Hle. }
      destruct (timeout wa) as [t|] eqn:Ht.
      - destruct (decide (t ≤ now wa + d)) as [Hle|Hgt].
        + rewrite (elapse_due wa d t Ht Hle).
          pose proof (time_passed_at_deadline wa t) as Hd.
          destruct (resize_callback_cases (at_deadline t wa))
            as (w1 & -> & [->|(p & _ & Hp & _ & Htog & _)]).
          * destruct (Hsame (at_deadline t wa) Hd) as (w' & Hrun & Hle').
            by eexists _, w'.
          * destruct Htog as (_&_&Hrefs&_&_&_&_&Hcount&Hel).
            destruct (resizes_popover_closed (with_now (now wa + d) w1) gaps)
              as (w' & Hrun & (_ & Htr & _)).
            { right. exists p. split.
              - replace (refs (with_now (now wa + d) w1)) with (refs w1)
                  by (by destruct w1).
                rewrite Hrefs. by destruct (at_deadline t wa).
              - replace (element (with_now (now wa + d) w1) p) with (element w1 p)
                  by (by destruct w1).
                destruct (Hel p) as (_ & -> & _). by destruct (decide (p = p)). }
            eexists _, w'. split; [done|]. split; [done|]. rewrite Htr.
            replace (trace (with_now (now wa + d) w1)) with (trace w1)
              by (by destruct w1).
            rewrite Hcount, count_closes_log_hide.
            destruct Hd as (_&->&_). by rewrite Htra.
        + rewrite (elapse_early wa d t Ht) by lia.
          destruct (Hsame wa (time_passed_refl wa)) as (w' & Hrun & Hle').
          by eexists _, w'.
      - rewrite elapse_no_timer by done.
        destruct (Hsame wa (time_passed_refl wa)) as (w' & Hrun & Hle').
        by eexists _, w'. }
    exists w'. split; [|done].
    cbn [resizes]. unfold bind. by rewrite Hres, Hel.
Qed.

(** X5: in every state reached from a fresh instance, resize events of any
    number and at any spacing, with the timer firing whenever it comes due,
    make the component close the popover at most once: the close removes
    the resize listener, so later resize events no longer reach the
    debounced callback. *)
Theorem resizes_close_at_most_once w0 (evs : list Event) (gaps : list nat) :
  fresh_instance w0 →
  ∃ w w', run evs w0 = Ok tt w ∧
    resizes gaps w = Ok tt w' ∧
    count_closes (trace w') ≤ S (count_closes (trace w)).
Proof.
  intros Hfresh.
  destruct (run_returns evs w0) as (w & Hrun).
  destruct (resizes_close_once w gaps) as (w' & Hres & Hle).
  by exists w, w'.
Qed.

(** X11: no sequence of events makes the component throw, in any world:
    whichever references are missing and whatever state the popover, the
    timer and the registration are in, every lifecycle callback, listener,
    timer callback and idle callback returns normally, because each method
    call on a reference is behind a guard. *)
Theorem run_never_throws (evs : list Event) w : ∃ w', run evs w = Ok tt w'.
Proof. apply run_returns. Qed.

End MoreProperties.

(** * The scenario of the class comment, on integer pixels *)

(** C1 at trigger rectangle top 50, left 20, right 120, bottom 80 in a
    viewport of 1000 by 800: top = 50, left = 20, right = 880, bottom = 720. *)
Lemma updatePosition_anchors_witness :
  ∃ w', updatePosition (Example.fresh Example.both_refs None) = Ok tt w' ∧
    style (element w' 2) !! "--anchor-top" = Some "50" ∧
    style (element w' 2) !! "--anchor-left" = Some "20" ∧
    style (element w' 2) !! "--anchor-right" = Some "880" ∧
    style (element w' 2) !! "--anchor-bottom" = Some "720".
Proof.
  destruct (updatePosition_anchors (Example.fresh Example.both_refs None) 2 1
              (@mkRect Z_JSNumber 50 120 80 20)%Z 1000%Z 800%Z
              eq_refl eq_refl eq_refl eq_refl eq_refl)
    as (w' & Hup & _ & Htop & Hleft & Hright & Hbottom).
  exists w'. split; [exact Hup|].
  vm_compute in Htop, Hleft, Hright, Hbottom. auto.
Defined.

(** C8 in the scenario: both recomputations write top = 50, right = 880,
    bottom = 720 and left = 20. *)
Lemma updatePosition_twice_witness :
  ∃ w1 w2,
    updatePosition (Example.fresh Example.both_refs None) = Ok tt w1 ∧
    updatePosition w1 = Ok tt w2 ∧
    trace w1 = [SetProperty 2 "--anchor-top" "50";
                SetProperty 2 "--anchor-right" "880";
                SetProperty 2 "--anchor-bottom" "720";
                SetProperty 2 "--anchor-left" "20"] ∧
    trace w2 = trace w1 ++
               [SetProperty 2 "--anchor-top" "50";
                SetProperty 2 "--anchor-right" "880";
                SetProperty 2 "--anchor-bottom" "720";
                SetProperty 2 "--anchor-left" "20"] ∧
    style (element w2 2) !! "--anchor-top" = Some "50" ∧
    style (element w2 2) !! "--anchor-left" = Some "20" ∧
    style (element w2 2) !! "--anchor-right" = Some "880" ∧
    style (element w2 2) !! "--anchor-bottom" = Some "720" ∧
    elements w2 = elements w1.
Proof.
  destruct (updatePosition_twice (Example.fresh Example.both_refs None))
    as (w1 & w2 & Hup1 & Hup2 & Hels & Hfull & _).
  destruct (Hfull 2 1 eq_refl eq_refl) as (Htr1 & Htr2 & Hst).
  destruct (Hst w2 (or_intror eq_refl)) as (Htop & Hleft & Hright & Hbottom).
  exists w1, w2. split; [exact Hup1|]. split; [exact Hup2|].
  split; [exact Htr1|]. split; [exact Htr2|].
  vm_compute in Htop, Hleft, Hright, Hbottom. auto.
Defined.

(** C3 in the scenario: the four writes come first, the registration last. *)
Lemma open_transition_recomputes_before_listening_witness :
  ∃ w', beforetoggle_listener "open" (Example.fresh Example.both_refs None)
        = Ok tt w' ∧
    trace w' = [SetProperty 2 "--anchor-top" "50";
                SetProperty 2 "--anchor-right" "880";
                SetProperty 2 "--anchor-bottom" "720";
                SetProperty 2 "--anchor-left" "20";
                AddEventListener "resize"] ∧
    resize_registered w' = true ∧
    style (element w' 2) !! "--anchor-right" = Some "880".
Proof.
  destruct (open_transition_recomputes_before_listening
              (Example.fresh Example.both_refs None))
    as (w1 & w' & writes & _ & _ & _ & Hl & Htr & Hreg & _ & Hfull).
  destruct (Hfull 2 1 eq_refl eq_refl) as (-> & _ & Hright & _).
  exists w'. split; [exact Hl|]. split; [|split; [exact Hreg|]].
  - vm_compute in Htr. exact Htr.
  - vm_compute in Hright. exact Hright.
Defined.

(** C4 in a document whose component lacks the popover reference. *)
Lemma updatePosition_missing_ref_witness :
  updatePosition (Example.fresh Example.trigger_only None)
  = Ok tt (Example.fresh Example.trigger_only None).
Proof.
  apply (updatePosition_missing_ref (Example.fresh Example.trigger_only None)).
  left. reflexivity.
Defined.

(** C5 for four resize events 10, 20 and 30 ms apart, then 100 ms of
    quiet, with [data-close-on-resize="true"] and the popover open: one
    close action, and the popover is closed. *)
Lemma resize_burst_closes_at_most_once_witness :
  ∃ wb w',
    burst [10; 20; 30] (Example.opened (Some "true")) = Ok tt wb ∧
    trace wb = trace (Example.opened (Some "true")) ∧
    elapse 100 wb = Ok tt w' ∧
    count_closes (trace w') = 1 ∧
    popover_open (element w' 2) = false.
Proof.
  destruct (resize_burst_closes_at_most_once
              (Example.opened (Some "true")) [10; 20; 30] 100)
    as (_ & wb & w' & Hb & Htr & _ & _ & _ & Hel & _ & _ & _ & Hclose).
  { vm_compute. reflexivity. }
  { simpl. lia. }
  exists wb, w'. split; [exact Hb|]. split; [exact Htr|]. split; [exact Hel|].
  destruct (Hclose (le_n 100) 2) as [Hcount Hclosed].
  { vm_compute. reflexivity. }
  { vm_compute. reflexivity. }
  { vm_compute. reflexivity. }
  split; [|exact Hclosed]. rewrite Hcount. vm_compute. reflexivity.
Defined.

(** C6 for resize events 10, 200 and 50 ms apart on an open popover whose
    component has no [data-close-on-resize] attribute. *)
Lemma resizes_without_flag_witness :
  ∃ w', resizes [10; 200; 50] (Example.opened None) = Ok tt w' ∧
    elements w' = elements (Example.opened None) ∧
    trace w' = trace (Example.opened None).
Proof.
  destruct (resizes_without_flag (Example.opened None) [10; 200; 50])
    as (_ & w' & Hrun & Hels & Htr & _).
  { vm_compute. reflexivity. }
  exists w'. auto.
Defined.



(** C10 for a component without the popover reference, whose document's
    popover is opened, closed and opened again. *)
Lemma connectedCallback_without_popover_witness :
  ∃ w2, run [Show 2; Hide 2; Show 2]
          (with_idle_callbacks 1 (Example.fresh Example.trigger_only None))
        = Ok tt w2 ∧
    trace w2 = [] ∧ resize_registered w2 = false.
Proof.
  destruct (connectedCallback_without_popover
              (Example.fresh Example.trigger_only None) [Show 2; Hide 2; Show 2])
    as (_ & _ & (w2 & Hrun & Htr & Hreg & _) & _).
  { split; [reflexivity|]. apply (bool_decide_unpack _). vm_compute. exact I. }
  { reflexivity. }
  { reflexivity. }
  exists w2. auto.
Defined.

(** C2 fails as worded: on a transition to [closed] the listener does not
    only remove the resize listener; it recomputes the position first, and
    the popover's declarations change. *)
Lemma beforetoggle_closed_recomputes :
  let w := Example.fresh Example.both_refs None in
  beforetoggle_listener "closed" w ≠ window_removeEventListener w ∧
  ∃ w', beforetoggle_listener "closed" w = Ok tt w' ∧
    trace w' = [SetProperty 2 "--anchor-top" "50";
                SetProperty 2 "--anchor-right" "880";
                SetProperty 2 "--anchor-bottom" "720";
                SetProperty 2 "--anchor-left" "20";
                RemoveEventListener "resize"] ∧
    style (element w 2) !! "--anchor-top" = None ∧
    style (element w' 2) !! "--anchor-top" = Some "50".
Proof.
  split.
  - intros Heq.
    apply (f_equal (λ r, match r with
                         | Ok _ w' | Throw _ w' => length (trace w')
                         end)) in Heq.
    vm_compute in Heq. discriminate.
  - eexists. split; [vm_compute; reflexivity|].
    repeat split; vm_compute; reflexivity.
Qed.

(** C9 at the markup of the class comment: the attribute is present without
    a value, so [dataset.closeOnResize] is the empty string, which is falsy;
    the debounced callback fires and leaves the open popover open.  With a
    value that is not empty the same run closes it. *)
Theorem bare_attribute_does_not_close :
  let evs v := [Connect; Show 2; SetData "closeOnResize" v; Resize; Elapse 100] in
  (∃ w', run (evs "") (Example.fresh Example.both_refs None) = Ok tt w' ∧
     dataset w' !! "closeOnResize" = Some "" ∧
     timeout w' = None ∧
     count_closes (trace w') = 0 ∧
     popover_open (element w' 2) = true) ∧
  (∃ w', run (evs "true") (Example.fresh Example.both_refs None) = Ok tt w' ∧
     count_closes (trace w') = 1 ∧
     popover_open (element w' 2) = false).
Proof.
  split.
  - eexists. split; [vm_compute; reflexivity|].
    repeat split; vm_compute; reflexivity.
  - eexists. split; [vm_compute; reflexivity|].
    repeat split; vm_compute; reflexivity.
Qed.

(** X1 with the value [true] set after the component was attached without
    the attribute. *)
Lemma resize_callback_reads_flag_when_called_witness :
  ∃ w', resize_callback
          (with_dataset (<["closeOnResize" := "true"]>
                           (dataset (Example.opened None)))
             (Example.opened None)) = Ok tt w' ∧
    count_closes (trace w') = 1 ∧
    popover_open (element w' 2) = false.
Proof.
  destruct (resize_callback_reads_flag_when_called (Example.opened None) 2 "true")
    as (_ & _ & Hclose).
  { vm_compute. reflexivity. }
  { vm_compute. reflexivity. }
  destruct Hclose as (w' & Hcb & Hcount & Hclosed); [discriminate|].
  exists w'. split; [exact Hcb|]. split; [|exact Hclosed].
  rewrite Hcount. vm_compute. reflexivity.
Defined.

(** X2 in the scenario: the trigger keeps its empty style and the popover
    gets no declaration besides the four. *)
Lemma updatePosition_touches_only_anchor_witness :
  ∃ w', updatePosition (Example.fresh Example.both_refs None) = Ok tt w' ∧
    element w' 1 = element (Example.fresh Example.both_refs None) 1 ∧
    style (element w' 2) !! "color" = None.
Proof.
  destruct (updatePosition_touches_only_anchor
              (Example.fresh Example.both_refs None) 2 1 eq_refl eq_refl)
    as (w' & Hup & Hel & Hst & _).
  exists w'. split; [exact Hup|]. split; [by apply Hel|].
  by rewrite Hst.
Defined.

(** X3 for an instance that is attached, opened, closed by a resize,
    reopened, attached again, closed and opened. *)
Lemma registered_exactly_while_open_witness :
  ∃ w, run [Connect; Show 2; Resize; Elapse 100; Show 2; Connect; Hide 2; Show 2]
         (Example.fresh Example.both_refs (Some "true")) = Ok tt w ∧
    popover_open (element w 2) = true ∧
    resize_registered w = true.
Proof.
  destruct (registered_exactly_while_open
              (Example.fresh Example.both_refs (Some "true")) 2
              [Show 2; Resize; Elapse 100; Show 2; Connect; Hide 2; Show 2])
    as (w & Hrun & Heq).
  - split; [reflexivity|]. apply (bool_decide_unpack _). vm_compute. exact I.
  - reflexivity.
  - reflexivity.
  - reflexivity.
  - reflexivity.
  - assert (popover_open (element w 2) = true) as Hop.
    { vm_compute in Hrun. injection Hrun as <-. vm_compute. reflexivity. }
    exists w. split; [exact Hrun|]. split; [exact Hop|]. by rewrite Heq.
Defined.

(** X4 on the attached, open popover of the scenario with
    [data-close-on-resize="true"]. *)
Lemma resize_close_recomputes_and_unregisters_witness :
  ∃ w', resize_callback (Example.opened (Some "true")) = Ok tt w' ∧
    trace w' = trace (Example.opened (Some "true")) ++
      [HidePopover 2;
       SetProperty 2 "--anchor-top" "50";
       SetProperty 2 "--anchor-right" "880";
       SetProperty 2 "--anchor-bottom" "720";
       SetProperty 2 "--anchor-left" "20";
       RemoveEventListener "resize"] ∧
    popover_open (element w' 2) = false ∧
    resize_registered w' = false.
Proof.
  destruct (resize_close_recomputes_and_unregisters
              (Example.opened (Some "true")) 2 1 0)
    as (w' & Hcb & Htr & _ & Hclosed & Hreg).
  { vm_compute. reflexivity. }
  { vm_compute. reflexivity. }
  { vm_compute. reflexivity. }
  { vm_compute. reflexivity. }
  { vm_compute. reflexivity. }
  exists w'. split; [exact Hcb|]. split; [|by split].
  rewrite Htr. vm_compute. reflexivity.
Defined.

(** X5 for three resize events 10, 200 and 300 ms apart on the attached,
    open popover. *)
Lemma resizes_close_at_most_once_witness :
  ∃ w w', run [Connect; Show 2] (Example.fresh Example.both_refs (Some "true"))
          = Ok tt w ∧
    resizes [10; 200; 300] w = Ok tt w' ∧
    count_closes (trace w') ≤ S (count_closes (trace w)).
Proof.
  apply (resizes_close_at_most_once
           (Example.fresh Example.both_refs (Some "true")) [Connect; Show 2]
           [10; 200; 300]).
  split; [reflexivity|]. apply (bool_decide_unpack _). vm_compute. exact I.
Defined.

(** X6 for three rounds on the scenario's component, with its popover
    open at the start. *)
Lemma reattached_accumulates_witness :
  ∃ w', run (reattached 2 3) (Example.opened None) = Ok tt w' ∧
    beforetoggle_listeners (element w' 2) = 4 ∧
    idle_callbacks w' = 4 ∧
    resize_registered w' = false ∧
    popover_open (element w' 2) = false.
Proof.
  destruct (reattached_accumulates 3 (Example.opened None) 2)
    as (w' & Hrun & Hn & Hi & Hclosed & _).
  { vm_compute. reflexivity. }
  destruct Hclosed as [Hreg Hop]; [lia|].
  exists w'. split; [exact Hrun|].
  split; [rewrite Hn; vm_compute; reflexivity|].
  split; [rewrite Hi; vm_compute; reflexivity|].
  split; [exact Hreg|exact Hop].
Defined.

(** X8 in the scenario. *)
Lemma idle_recompute_after_attach_witness :
  ∃ w', run [Connect; Idle] (Example.fresh Example.both_refs None) = Ok tt w' ∧
    trace w' = [SetProperty 2 "--anchor-top" "50";
                SetProperty 2 "--anchor-right" "880";
                SetProperty 2 "--anchor-bottom" "720";
                SetProperty 2 "--anchor-left" "20"] ∧
    idle_callbacks w' = 0.
Proof.
  destruct (idle_recompute_after_attach
              (Example.fresh Example.both_refs None) 2 1 eq_refl eq_refl)
    as ((w' & Hrun & Htr & _ & Hidle & _) & _).
  exists w'. split; [exact Hrun|]. split; [|exact Hidle].
  rewrite Htr. vm_compute. reflexivity.
Defined.

(** X10 on a component without the popover reference, flag set. *)
Lemma resize_callback_guarded_witness :
  resize_callback (Example.fresh Example.trigger_only (Some "true"))
  = Ok tt (Example.fresh Example.trigger_only (Some "true")).
Proof.
  apply (resize_callback_guarded (Example.fresh Example.trigger_only (Some "true"))).
  left. reflexivity.
Defined.
